(** * onceForm: the run-once action wrapper of sveltekit-onceform

    A shallow embedding of [src/lib/onceForm.ts].  The module keeps one
    registry, [running], from token to the job in flight; [onceAction]
    wraps a handler so that calls presenting the same token while a job
    is in flight wait for that job instead of running the handler again,
    and then replay the cookie writes the job recorded.

    JavaScript runs one synchronous segment at a time and switches only at
    an [await].  The embedding therefore has one transition per segment:
    a call of the wrapped action up to its first suspension, a handler
    resuming after an [await], the [finally] reaction of a job, and a
    duplicate resuming after [await existing.promise].

    What the embedding takes from the framework:
    - every call receives an event of its own, as SvelteKit builds one per
      request, so the writes to a call's response are kept with the call
      and a duplicate's [cookies.set] is the one its event came with;
    - [event.cookies.set] is the framework's: it applies the write or
      raises, and which of the two is a field of the event;
    - a handler is an async function that reaches the module only through
      its event: it does not call a wrapped action itself;
    - the [finally] reaction is one step: [running.delete(token)] runs and
      the promise derived by [.finally] takes the handler's outcome; only
      the duplicates read that promise, and each resumes in a step of its
      own afterwards. *)

From stdpp Require Import base option list strings gmap.
From Stdlib Require Import ZArith Lia.

Local Open Scope string_scope.
Local Open Scope list_scope.
Local Open Scope nat_scope.

(** ** Values exchanged with SvelteKit *)

Definition COOKIE : string := "form_once".
Definition COOKIE_MAX_AGE_SECONDS : Z := 600%Z.

(** [CookieOpts = CookieSerializeOptions & { path: string }]: the path is
    required, the other options are optional. *)
Record CookieOpts : Type := mkCookieOpts {
  path : string;
  httpOnly : option bool;
  maxAge : option Z
}.

(** [CookieOp = [name, value, opts]]. *)
Definition CookieOp : Type := string * string * CookieOpts.

(** A JSON-like payload. *)
Definition Data : Type := list (string * string).

(** What a handler may return: any value of its own, or the
    [ActionFailure] that [fail(status, data)] builds. *)
Inductive Value : Type :=
| Plain (data : Data)
| ActionFailure (status : Z) (data : Data).

(** What may be thrown: the [Redirect] that [redirect(status, location)]
    builds, or any other exception. *)
Inductive Thrown : Type :=
| Redirect (status : Z) (location : string)
| Exception (message : string).

(** A settled promise. *)
Inductive Settled : Type :=
| Fulfilled (v : Value)
| Rejected (e : Thrown).

Definition fail (status : Z) (data : Data) : Value := ActionFailure status data.
Definition redirect (status : Z) (location : string) : Thrown := Redirect status location.

(** The event a call receives.  [request_cookies] is what
    [event.cookies.get] reads.  [cookies_set] is the event's own
    [event.cookies.set], a method of the framework: [None] when the write
    is applied to the response, [Some e] when the call raises [e]. *)
Record RequestEvent : Type := mkEvent {
  request_cookies : gmap string string;
  cookies_set : CookieOp → option Thrown
}.

Definition cookies_get (event : RequestEvent) (name : string) : option string :=
  request_cookies event !! name.

(** ** Handlers

    A handler is an async function of the event.  Its body is a
    resumption: it returns, throws, calls [event.cookies.set] (and goes on
    with [None], or with the exception the call raised, which it may
    rethrow or catch), or awaits something and goes on with what it
    got. *)
Inductive Prog : Type :=
| Return (v : Value)
| Throw (e : Thrown)
| CookiesSet (op : CookieOp) (k : option Thrown → Prog)
| Await (k : Data → Prog).

Definition Handler : Type := RequestEvent → Prog.

(** [kitRedirect(path)]: [throw redirect(303, path)]. *)
Definition kitRedirect (location : string) : Prog := Throw (redirect 303%Z location).

(** The handler's own promise: still running, suspended at an [await], or
    settled. *)
Inductive HandlerState : Type :=
| Suspended (k : Data → Prog)
| Finished (o : Settled).

(** ** Jobs, calls and the module state *)

(** [RunningJob = { promise, ops }].  [promise] is
    [handler(event).finally(...)]: [None] while pending.  [ops] is the
    array shared by the registry entry and by the closure installed over
    the owner's [cookies.set].  The other three fields are what the
    closures of the job capture: the [token] of the [finally] callback,
    the owner's event behind [originalSet], and the handler's own
    promise. *)
Record RunningJob : Type := mkJob {
  job_token : string;
  job_owner : nat;
  ops : list CookieOp;
  body : HandlerState;
  promise : option Settled
}.

(** How a call of the wrapped action went on after reading the token. *)
Inductive Role : Type :=
| NoToken
| Owner (j : nat)
| Duplicate (j : nat).

(** One call of a wrapped action: its event, the writes applied to its
    response so far, its role, and what its own body returned or threw
    ([None] while suspended; an owner returns the job's promise, see
    [outcome]). *)
Record Call : Type := mkCall {
  call_event : RequestEvent;
  response_cookies : list CookieOp;
  role : Role;
  returned : option Settled
}.

(** [running] is the module-level [Map]; jobs are objects on the heap,
    named by their index in [jobs]; [invocations] logs the token of every
    invocation of a handler body. *)
Record State : Type := mkState {
  running : gmap string nat;
  jobs : list RunningJob;
  calls : list Call;
  invocations : list string
}.

Definition init : State := mkState ∅ [] [] [].

(** ** The patched [cookies.set] and the handler's segments *)

(** One synchronous segment of a handler body, run on the owner's event
    after [event.cookies.set] was replaced: every write is pushed on the
    job's [ops] first and then handed to [originalSet]. *)
Fixpoint run_segment (originalSet : CookieOp → option Thrown) (p : Prog)
    (ops written : list CookieOp) : list CookieOp * list CookieOp * HandlerState :=
  match p with
  | Return v => (ops, written, Finished (Fulfilled v))
  | Throw e => (ops, written, Finished (Rejected e))
  | CookiesSet op k =>
      match originalSet op with
      | None => run_segment originalSet (k None) (ops ++ [op]) (written ++ [op])
      | Some e => run_segment originalSet (k (Some e)) (ops ++ [op]) written
      end
  | Await k => (ops, written, Suspended k)
  end.

(** ** [onceAction(handler)] *)

(** The synchronous part of [wrapped(event)]: up to [return fail(...)],
    to [await existing.promise], or to [return promise]. *)
Definition wrapped (handler : Handler) (event : RequestEvent) (st : State) : State :=
  let missing :=
    mkState (running st) (jobs st)
      (calls st ++ [mkCall event [] NoToken
         (Some (Fulfilled (fail 400%Z [("message", "Form token missing")])))])
      (invocations st) in
  match cookies_get event COOKIE with
  | None => missing
  | Some token =>
      if decide (token = "") then missing
      else
        match running st !! token with
        | Some existing =>
            mkState (running st) (jobs st)
              (calls st ++ [mkCall event [] (Duplicate existing) None])
              (invocations st)
        | None =>
            let j := length (jobs st) in
            let c := length (calls st) in
            let '(ops, written, body) :=
              run_segment (cookies_set event) (handler event) [] [] in
            mkState (<[token := j]> (running st))
              (jobs st ++ [mkJob token c ops body None])
              (calls st ++ [mkCall event written (Owner j) None])
              (invocations st ++ [token])
        end
  end.

(** The handler of job [j] resumes after an [await] with the value [x]
    and runs its next segment. *)
Definition resume_handler (j : nat) (x : Data) (st : State) : option State :=
  job ← jobs st !! j;
  match body job with
  | Suspended k =>
      owner ← calls st !! job_owner job;
      let '(ops', written', body') :=
        run_segment (cookies_set (call_event owner)) (k x)
          (ops job) (response_cookies owner) in
      Some (mkState (running st)
              (<[j := mkJob (job_token job) (job_owner job) ops' body' (promise job)]> (jobs st))
              (<[job_owner job :=
                   mkCall (call_event owner) written' (role owner) (returned owner)]> (calls st))
              (invocations st))
  | Finished _ => None
  end.

(** The [finally] reaction of job [j], once its handler has settled:
    [running.delete(token)], after which [promise] takes the handler's
    outcome. *)
Definition settle_job (j : nat) (st : State) : option State :=
  job ← jobs st !! j;
  match body job, promise job with
  | Finished o, None =>
      Some (mkState (delete (job_token job) (running st))
              (<[j := mkJob (job_token job) (job_owner job) (ops job) (body job) (Some o)]> (jobs st))
              (calls st) (invocations st))
  | _, _ => None
  end.

(** [for (const [name, value, opts] of existing.ops)
       event.cookies.set(name, value, opts)]
    on a duplicate's event: the loop stops at the first write that
    raises. *)
Fixpoint replay (set : CookieOp → option Thrown) (ops written : list CookieOp)
    : list CookieOp * option Thrown :=
  match ops with
  | [] => (written, None)
  | op :: rest =>
      match set op with
      | None => replay set rest (written ++ [op])
      | Some e => (written, Some e)
      end
  end.

(** The duplicate's [try { ... } catch (err) { ... }] once
    [existing.promise] has settled with [o]. *)
Definition settle_duplicate (set : CookieOp → option Thrown)
    (ops written : list CookieOp) (o : Settled) : list CookieOp * Settled :=
  match o with
  | Fulfilled result =>
      match replay set ops written with
      | (written1, None) => (written1, Fulfilled result)
      | (written1, Some err) =>
          match replay set ops written1 with
          | (written2, None) => (written2, Rejected err)
          | (written2, Some err') => (written2, Rejected err')
          end
      end
  | Rejected err =>
      match replay set ops written with
      | (written1, None) => (written1, Rejected err)
      | (written1, Some err') => (written1, Rejected err')
      end
  end.

(** The duplicate call [c] resumes after [await existing.promise]. *)
Definition resume_duplicate (c : nat) (st : State) : option State :=
  call ← calls st !! c;
  match role call, returned call with
  | Duplicate j, None =>
      existing ← jobs st !! j;
      o ← promise existing;
      let '(written, r) :=
        settle_duplicate (cookies_set (call_event call)) (ops existing)
          (response_cookies call) o in
      Some (mkState (running st) (jobs st)
              (<[c := mkCall (call_event call) written (role call) (Some r)]> (calls st))
              (invocations st))
  | _, _ => None
  end.

(** ** The event loop *)

Inductive Step : Type :=
| Request (handler : Handler) (event : RequestEvent)
| HandlerResumes (j : nat) (x : Data)
| JobSettles (j : nat)
| DuplicateResumes (c : nat).

Definition step (s : Step) (st : State) : option State :=
  match s with
  | Request handler event => Some (wrapped handler event st)
  | HandlerResumes j x => resume_handler j x st
  | JobSettles j => settle_job j st
  | DuplicateResumes c => resume_duplicate c st
  end.

Fixpoint exec (tr : list Step) (st : State) : option State :=
  match tr with
  | [] => Some st
  | s :: tr' => st' ← step s st; exec tr' st'
  end.

(** What the caller of call [call] gets: an owner returned the job's
    [promise], so its call settles as the job does; any other call
    settles with what its own body returned or threw. *)
Definition outcome (st : State) (call : Call) : option Settled :=
  match role call with
  | Owner j => job ← jobs st !! j; promise job
  | _ => returned call
  end.

(** The token a call is keyed by, if [!token] is false. *)
Definition token_of (event : RequestEvent) : option string :=
  match cookies_get event COOKIE with
  | Some token => if decide (token = "") then None else Some token
  | None => None
  end.

(** ** Derived notions used by the statements *)

Definition reachable (st : State) : Prop := ∃ tr, exec tr init = Some st.

(** The state a trace leads to from [init]. *)
Definition run (tr : list Step) : State := default init (exec tr init).

Abbreviation token_missing :=
  (Fulfilled (fail 400%Z [("message", "Form token missing")])).

(** The event's [cookies.set] raises on none of the writes. *)
Definition accepts (event : RequestEvent) (ops : list CookieOp) : Prop :=
  Forall (λ op, cookies_set event op = None) ops.

(** The writes of [ops] that [set] applies. *)
Definition applied (set : CookieOp → option Thrown) (ops : list CookieOp) : list CookieOp :=
  filter (λ op, set op = None) ops.

(** The exception of the first write of [ops] on which [set] raises. *)
Fixpoint first_raise (set : CookieOp → option Thrown) (ops : list CookieOp) : option Thrown :=
  match ops with
  | [] => None
  | op :: rest =>
      match set op with
      | None => first_raise set rest
      | Some e => Some e
      end
  end.

(** The writes of [ops] before that one. *)
Fixpoint applied_prefix (set : CookieOp → option Thrown) (ops : list CookieOp) : list CookieOp :=
  match ops with
  | [] => []
  | op :: rest =>
      match set op with
      | None => op :: applied_prefix set rest
      | Some _ => []
      end
  end.

(** How often a handler body was invoked for [token]. *)
Definition invocations_for (token : string) (st : State) : nat :=
  length (filter (λ t, t = token) (invocations st)).

(** Whether a step is the [finally] reaction of job [j], and whether it
    is a call presenting [token]. *)
Definition settles (j : nat) (s : Step) : bool :=
  match s with
  | JobSettles j' => bool_decide (j' = j)
  | _ => false
  end.

Definition presents (token : string) (s : Step) : bool :=
  match s with
  | Request _ event => bool_decide (token_of event = Some token)
  | _ => false
  end.

(** ** The invariant of the module state *)

Record Inv (st : State) : Prop := mkInv {
  inv_entry : ∀ token j, running st !! token = Some j →
    ∃ job, jobs st !! j = Some job ∧ job_token job = token ∧ promise job = None;
  inv_pending : ∀ j job, jobs st !! j = Some job → promise job = None →
    running st !! job_token job = Some j;
  inv_promise : ∀ j job o, jobs st !! j = Some job → promise job = Some o →
    body job = Finished o;
  inv_owner : ∀ j job, jobs st !! j = Some job →
    ∃ call, calls st !! job_owner job = Some call ∧ role call = Owner j ∧
      returned call = None ∧
      response_cookies call = applied (cookies_set (call_event call)) (ops job) ∧
      token_of (call_event call) = Some (job_token job);
  inv_owned : ∀ c call j, calls st !! c = Some call → role call = Owner j →
    ∃ job, jobs st !! j = Some job ∧ job_owner job = c;
  inv_duplicate : ∀ c call j, calls st !! c = Some call → role call = Duplicate j →
    ∃ job, jobs st !! j = Some job ∧
      token_of (call_event call) = Some (job_token job) ∧
      match returned call with
      | None => response_cookies call = []
      | Some r => ∃ o, promise job = Some o ∧
          settle_duplicate (cookies_set (call_event call)) (ops job) [] o
          = (response_cookies call, r)
      end;
  inv_no_token : ∀ c call, calls st !! c = Some call → role call = NoToken →
    token_of (call_event call) = None ∧ response_cookies call = [] ∧
    returned call = Some token_missing;
  inv_invocations : invocations st = job_token <$> jobs st
}.

(** A call shares job [j] as its owner or as a duplicate that joined it. *)
Definition shares (call : Call) (j : nat) : Prop :=
  role call = Owner j ∨ role call = Duplicate j.


Global Instance Call_inhabited : Inhabited Call :=
  populate (mkCall (mkEvent ∅ (λ _, None)) [] NoToken None).

Global Instance RunningJob_inhabited : Inhabited RunningJob :=
  populate (mkJob "" 0 [] (Finished (Rejected (Exception ""))) None).

(** ** Concrete events, handlers and traces *)

Definition accept_all : CookieOp → option Thrown := λ _, None.

(** A [cookies.set] that raises on a value of more than eight characters. *)
Definition size_limited : CookieOp → option Thrown :=
  λ op, if decide (8 < String.length op.1.2)
        then Some (Exception "Cookie is too large") else None.

Definition event_with (token : string) (set : CookieOp → option Thrown) : RequestEvent :=
  mkEvent {[ COOKIE := token ]} set.

Definition event_without (set : CookieOp → option Thrown) : RequestEvent :=
  mkEvent ∅ set.

Definition session_op : CookieOp :=
  ("session", "s1", mkCookieOpts "/" (Some true) None).

Definition flash_op : CookieOp :=
  ("flash", "welcome back", mkCookieOpts "/login" None (Some 60%Z)).

(** Awaits the form, sets two cookies (an exception of [cookies.set]
    propagates) and redirects home. *)
Definition signin : Handler := λ _,
  Await (λ _,
    CookiesSet session_op (λ r1,
      match r1 with
      | Some e => Throw e
      | None =>
          CookiesSet flash_op (λ r2,
            match r2 with
            | Some e => Throw e
            | None => kitRedirect "/"
            end)
      end)).

(** Sets the same two cookies, each inside [try { } catch { }], awaits
    and ends as [last]. *)
Definition tolerant (last : Prog) : Handler := λ _,
  CookiesSet session_op (λ _, CookiesSet flash_op (λ _, Await (λ _, last))).

(** Validates at once, without a cookie and without an [await]. *)
Definition reject_all : Handler := λ _,
  Return (fail 400%Z [("errors", "Username is required")]).

(** Three calls present the token ["abc123"] before the first settles;
    then the handler finishes, the job settles, the duplicates resume. *)
Definition three_calls : list Step :=
  let event := event_with "abc123" accept_all in
  [Request signin event; Request signin event; Request signin event;
   HandlerResumes 0 []; JobSettles 0; DuplicateResumes 1; DuplicateResumes 2].

(** Two calls with the token ["abc123"], on events whose [cookies.set]
    raises on [flash_op]: the first, of the action wrapping [first],
    becomes the owner; the second, of the action wrapping [second],
    arrives while the job is in flight. *)
Definition rejected_write (first second : Handler) : list Step :=
  let event := event_with "abc123" size_limited in
  [Request first event; Request second event;
   HandlerResumes 0 []; JobSettles 0; DuplicateResumes 1].

(** ** [addFormToken(event, data)] *)

(** [CookieEvent]: the [cookies] and the [url] of a server load event, of
    which the function uses [cookies.set] and [url.pathname]. *)
Record CookieEvent : Type := mkCookieEvent {
  load_cookies_set : CookieOp → option Thrown;
  pathname : string
}.

(** [data[key]] on an object. *)
Fixpoint obj_get (data : Data) (key : string) : option string :=
  match data with
  | [] => None
  | (k, v) :: rest => if decide (k = key) then Some v else obj_get rest key
  end.

(** [{ ...data, key: value }]: a property of that name keeps its place
    and takes the new value, otherwise the property is added last. *)
Fixpoint obj_set (data : Data) (key value : string) : Data :=
  match data with
  | [] => [(key, value)]
  | (k, v) :: rest =>
      if decide (k = key) then (k, value) :: rest
      else (k, v) :: obj_set rest key value
  end.

(** [addFormToken]: [uuid] is what [crypto.randomUUID()] returned; [data]
    is [None] when the argument is left out and defaults to [{}].  The
    function raises what [cookies.set] raises, and otherwise returns the
    page data; the write it made is returned with it. *)
Definition addFormToken (uuid : string) (event : CookieEvent) (data : option Data)
    : Thrown + (CookieOp * Data) :=
  let token := uuid in
  let op := (COOKIE, token,
             mkCookieOpts (pathname event) (Some true) (Some COOKIE_MAX_AGE_SECONDS)) in
  match load_cookies_set event op with
  | Some e => inl e
  | None => inr (op, obj_set (default [] data) "token" token)
  end.

(** ** The login route, [src/routes/login/+page.server.ts] *)

(** [export const load = (event) => addFormToken(event)]. *)
Definition login_load (uuid : string) (event : CookieEvent) : Thrown + (CookieOp * Data) :=
  addFormToken uuid event None.

(** The [errors] object the action builds from the two fields. *)
Definition login_errors (user password : string) : Data :=
  let errors := [] in
  let errors :=
    if decide (user = "") then obj_set errors "user" "Username is required" else errors in
  let errors :=
    if decide (password = "") then obj_set errors "password" "Password is required"
    else errors in
  if decide (length errors = 0) then
    if decide (user ≠ "admin" ∨ password ≠ "password")
    then obj_set errors "db" "Wrong username or password"
    else errors
  else errors.

(** [{ data: { user, password }, errors }], each leaf under the path that
    leads to it. *)
Definition login_failure (user password : string) (errors : Data) : Data :=
  [("data.user", user); ("data.password", password)]
  ++ ((λ kv, ("errors." +:+ kv.1, kv.2)) <$> errors).

(** The handler given to [onceAction]: it awaits the form (here its text
    fields, a missing one reading as the empty string), awaits the timer,
    validates, and returns the failure or throws the redirect. *)
Definition login : Handler := λ _,
  Await (λ formData,
    let user := default "" (obj_get formData "user") in
    let password := default "" (obj_get formData "password") in
    Await (λ _,
      let errors := login_errors user password in
      if decide (length errors ≠ 0)
      then Return (fail 400%Z (login_failure user password errors))
      else kitRedirect "/")).

(** ** Handlers that set no cookie *)

Fixpoint sets_no_cookie (p : Prog) : Prop :=
  match p with
  | Return _ | Throw _ => True
  | CookiesSet _ _ => False
  | Await k => ∀ x, sets_no_cookie (k x)
  end.

(** A job that has recorded no write and whose handler will issue none. *)
Definition quiet (job : RunningJob) : Prop :=
  ops job = [] ∧
  match body job with
  | Suspended k => ∀ x, sets_no_cookie (k x)
  | Finished _ => True
  end.

(** ** The earlier variant of [onceAction]

    The second source file of the library keeps the promise itself in the
    registry, leaves [event.cookies.set] alone and lets a duplicate
    return the promise in flight. *)
Module Legacy.

(** What the closures of one job hold, and its promise
    [handler(event).finally(...)], the value stored in [running]. *)
Record Job : Type := mkJob {
  job_token : string;
  job_owner : nat;
  body : HandlerState;
  promise : option Settled
}.

Record State : Type := mkState {
  running : gmap string nat;
  jobs : list Job;
  calls : list Call;
  invocations : list string
}.

Definition init : State := mkState ∅ [] [] [].

(** One synchronous segment of a handler: its writes go straight to the
    [cookies.set] of the owner's event. *)
Fixpoint run_segment (set : CookieOp → option Thrown) (p : Prog)
    (written : list CookieOp) : list CookieOp * HandlerState :=
  match p with
  | Return v => (written, Finished (Fulfilled v))
  | Throw e => (written, Finished (Rejected e))
  | CookiesSet op k =>
      match set op with
      | None => run_segment set (k None) (written ++ [op])
      | Some e => run_segment set (k (Some e)) written
      end
  | Await k => (written, Suspended k)
  end.

(** [wrapped(event)]: up to [return fail(...)], [return inFlight] or
    [return job]. *)
Definition wrapped (handler : Handler) (event : RequestEvent) (st : State) : State :=
  let missing :=
    mkState (running st) (jobs st)
      (calls st ++ [mkCall event [] NoToken
         (Some (Fulfilled (fail 400%Z [("message", "Form token missing")])))])
      (invocations st) in
  match cookies_get event COOKIE with
  | None => missing
  | Some token =>
      if decide (token = "") then missing
      else
        match running st !! token with
        | Some inFlight =>
            mkState (running st) (jobs st)
              (calls st ++ [mkCall event [] (Duplicate inFlight) None])
              (invocations st)
        | None =>
            let j := length (jobs st) in
            let c := length (calls st) in
            let '(written, body) :=
              run_segment (cookies_set event) (handler event) [] in
            mkState (<[token := j]> (running st))
              (jobs st ++ [mkJob token c body None])
              (calls st ++ [mkCall event written (Owner j) None])
              (invocations st ++ [token])
        end
  end.

Definition resume_handler (j : nat) (x : Data) (st : State) : option State :=
  job ← jobs st !! j;
  match body job with
  | Suspended k =>
      owner ← calls st !! job_owner job;
      let '(written', body') :=
        run_segment (cookies_set (call_event owner)) (k x) (response_cookies owner) in
      Some (mkState (running st)
              (<[j := mkJob (job_token job) (job_owner job) body' (promise job)]> (jobs st))
              (<[job_owner job :=
                   mkCall (call_event owner) written' (role owner) (returned owner)]> (calls st))
              (invocations st))
  | Finished _ => None
  end.

Definition settle_job (j : nat) (st : State) : option State :=
  job ← jobs st !! j;
  match body job, promise job with
  | Finished o, None =>
      Some (mkState (delete (job_token job) (running st))
              (<[j := mkJob (job_token job) (job_owner job) (body job) (Some o)]> (jobs st))
              (calls st) (invocations st))
  | _, _ => None
  end.

(** A duplicate has no segment of its own after the call: there is no
    step for it to resume. *)
Definition step (s : Step) (st : State) : option State :=
  match s with
  | Request handler event => Some (wrapped handler event st)
  | HandlerResumes j x => resume_handler j x st
  | JobSettles j => settle_job j st
  | DuplicateResumes _ => None
  end.

Fixpoint exec (tr : list Step) (st : State) : option State :=
  match tr with
  | [] => Some st
  | s :: tr' => st' ← step s st; exec tr' st'
  end.

(** Owner and duplicate both returned the job's promise. *)
Definition outcome (st : State) (call : Call) : option Settled :=
  match role call with
  | Owner j | Duplicate j => job ← jobs st !! j; promise job
  | NoToken => returned call
  end.

End Legacy.

(** What the earlier variant keeps of a job, a call and a state of the
    present one: not the recorded ops, and nothing of what a duplicate
    does after the job has settled. *)
Definition forget_job (job : RunningJob) : Legacy.Job :=
  Legacy.mkJob (job_token job) (job_owner job) (body job) (promise job).

Definition forget_call (call : Call) : Call :=
  match role call with
  | Duplicate _ => mkCall (call_event call) [] (role call) None
  | _ => call
  end.

Definition forget (st : State) : Legacy.State :=
  Legacy.mkState (running st) (forget_job <$> jobs st) (forget_call <$> calls st)
    (invocations st).

Definition is_resume (s : Step) : bool :=
  match s with
  | DuplicateResumes _ => true
  | _ => false
  end.

(** A trace without the steps in which duplicates resume. *)
Definition without_resumes (tr : list Step) : list Step :=
  filter (λ s, is_resume s = false) tr.

(** ** Further concrete inputs *)

Definition login_page : CookieEvent := mkCookieEvent accept_all "/login".

Definition uuid1 : string := "3b241101-e2bb-4255-8caf-4136c566a962".

Definition good_form : Data := [("user", "admin"); ("password", "password")].

Definition bad_form : Data := [("user", "admin"); ("password", "hunter2")].

(** Two submissions of the login form with the same token. *)
Definition double_submit (form : Data) : list Step :=
  let event := event_with uuid1 size_limited in
  [Request login event; HandlerResumes 0 form; Request login event;
   HandlerResumes 0 []; JobSettles 0; DuplicateResumes 1].

(** ** The writes a handler issues *)

(** What a handler body does when the awaits it reaches are answered, in
    order, by [inputs]: the writes it issues, in order of issue and
    whatever [set] makes of them, and the state it is left in.  Each
    continuation of a write gets what [set] answered. *)
Fixpoint handler_run (set : CookieOp → option Thrown) (p : Prog) (inputs : list Data)
    : list CookieOp * HandlerState :=
  match p with
  | Return v => ([], Finished (Fulfilled v))
  | Throw e => ([], Finished (Rejected e))
  | CookiesSet op k =>
      let '(issued, b) := handler_run set (k (set op)) inputs in (op :: issued, b)
  | Await k =>
      match inputs with
      | [] => ([], Suspended k)
      | x :: rest => handler_run set (k x) rest
      end
  end.

(** The same from a handler state. *)
Definition resume_run (set : CookieOp → option Thrown) (b : HandlerState)
    (inputs : list Data) : list CookieOp * HandlerState :=
  match b with
  | Suspended k =>
      match inputs with
      | [] => ([], b)
      | x :: rest => handler_run set (k x) rest
      end
  | Finished _ => ([], b)
  end.

(** The values with which the handler of job [j] is resumed along a
    trace. *)
Fixpoint inputs_of (j : nat) (tr : list Step) : list Data :=
  match tr with
  | [] => []
  | HandlerResumes j' x :: tr' =>
      if decide (j' = j) then x :: inputs_of j tr' else inputs_of j tr'
  | _ :: tr' => inputs_of j tr'
  end.

(** ** The three ways a call goes *)

Lemma wrapped_missing handler event st :
  token_of event = None →
  wrapped handler event st =
  mkState (running st) (jobs st)
    (calls st ++ [mkCall event [] NoToken (Some token_missing)]) (invocations st).
Proof.
  unfold token_of, wrapped. destruct (cookies_get event COOKIE) as [token|]; [|done].
  destruct (decide (token = "")); [done|discriminate].
Qed.

Lemma wrapped_duplicate handler event st token j :
  token_of event = Some token → running st !! token = Some j →
  wrapped handler event st =
  mkState (running st) (jobs st)
    (calls st ++ [mkCall event [] (Duplicate j) None]) (invocations st).
Proof.
  unfold token_of, wrapped. destruct (cookies_get event COOKIE) as [token'|]; [|done].
  destruct (decide (token' = "")); [done|]. intros [= ->] ->. done.
Qed.

Lemma wrapped_owner handler event st token :
  token_of event = Some token → running st !! token = None →
  wrapped handler event st =
  let '(ops, written, body) := run_segment (cookies_set event) (handler event) [] [] in
  mkState (<[token := length (jobs st)]> (running st))
    (jobs st ++ [mkJob token (length (calls st)) ops body None])
    (calls st ++ [mkCall event written (Owner (length (jobs st))) None])
    (invocations st ++ [token]).
Proof.
  unfold token_of, wrapped. destruct (cookies_get event COOKIE) as [token'|]; [|done].
  destruct (decide (token' = "")); [done|]. intros [= ->] ->. done.
Qed.

(** A segment only appends: to [ops] every write the handler issued, to
    the owner's response those of them that [originalSet] applied. *)
Lemma run_segment_appends set p : ∀ ops written ops' written' body',
  run_segment set p ops written = (ops', written', body') →
  ∃ new, ops' = ops ++ new ∧ written' = written ++ applied set new.
Proof.
  induction p as [v|e|op k IH|k IH]; simpl; intros ops written ops' written' body' Hrun.
  - exists []. simplify_eq. by rewrite !app_nil_r.
  - exists []. simplify_eq. by rewrite !app_nil_r.
  - destruct (set op) as [e|] eqn:Hset.
    + apply IH in Hrun as (new & -> & ->). exists (op :: new).
      unfold applied. rewrite filter_cons_False by (rewrite Hset; done).
      by rewrite <- app_assoc.
    + apply IH in Hrun as (new & -> & ->). exists (op :: new).
      unfold applied. rewrite filter_cons_True by done.
      by rewrite <- !app_assoc.
  - exists []. simplify_eq. by rewrite !app_nil_r.
Qed.

Lemma run_segment_applied set p ops ops' written' body' :
  run_segment set p ops (applied set ops) = (ops', written', body') →
  written' = applied set ops'.
Proof.
  intros (new & -> & ->)%run_segment_appends. unfold applied. by rewrite filter_app.
Qed.

(** ** The invariant holds in every reachable state *)

Lemma lookup_snoc_old {A} (l : list A) (y x : A) i :
  l !! i = Some x → (l ++ [y]) !! i = Some x.
Proof. intros H. rewrite lookup_app_l; [done|]. by eapply lookup_lt_Some. Qed.

Lemma Inv_init : Inv init.
Proof. split; simpl; intros; try done; by simplify_map_eq. Qed.

(** A call that adds no job. *)
Lemma Inv_new_call st call :
  Inv st →
  match role call with
  | NoToken => token_of (call_event call) = None ∧ returned call = Some token_missing
  | Duplicate j => ∃ job, jobs st !! j = Some job ∧
      token_of (call_event call) = Some (job_token job) ∧ returned call = None
  | Owner _ => False
  end →
  response_cookies call = [] →
  Inv (mkState (running st) (jobs st) (calls st ++ [call]) (invocations st)).
Proof.
  intros [He Hp Hs Ho Hd Hu Hn Hi] Hrole Hresp. split; simpl; try done.
  - intros j job Hj. destruct (Ho j job Hj) as (call' & Hc & ?).
    exists call'. split; [by apply lookup_snoc_old|done].
  - intros c call' j [[_ Hc]|[-> <-]]%lookup_snoc_Some Hr; [by eapply Hd|].
    by rewrite Hr in Hrole.
  - intros c call' j [[_ Hc]|[-> <-]]%lookup_snoc_Some Hr; [by eapply Hu|].
    rewrite Hr in Hrole. destruct Hrole as (job & Hj & Ht & Hret).
    exists job. by rewrite Hret.
  - intros c call' [[_ Hc]|[-> <-]]%lookup_snoc_Some Hr; [by eapply Hn|].
    rewrite Hr in Hrole. by destruct Hrole.
Qed.

Lemma Inv_wrapped handler event st : Inv st → Inv (wrapped handler event st).
Proof.
  intros HI. destruct (token_of event) as [token|] eqn:Htok.
  2:{ rewrite wrapped_missing by done. by apply Inv_new_call. }
  destruct (running st !! token) as [j|] eqn:Hrun.
  { rewrite (wrapped_duplicate _ _ _ token j) by done.
    apply Inv_new_call; [done| |done]. simpl.
    destruct (inv_entry _ HI token j Hrun) as (job & Hj & <- & _). eauto. }
  rewrite (wrapped_owner _ _ _ token) by done.
  destruct (run_segment _ _ _ _) as [[ops' written'] body'] eqn:Hseg.
  apply (run_segment_applied _ _ []) in Hseg as Hwritten.
  destruct HI as [He Hp Hs Ho Hd Hu Hn Hi]. split; simpl.
  - intros token' j [[<- <-]|[Hne Hj]]%lookup_insert_Some.
    + eexists. split; [apply list_lookup_middle; done|done].
    + destruct (He _ _ Hj) as (job & Hjob & ?). exists job.
      split; [by apply lookup_snoc_old|done].
  - intros j job [[_ Hj]|[-> <-]]%lookup_snoc_Some Hpend; simpl.
    + specialize (Hp _ _ Hj Hpend). rewrite lookup_insert_ne; [done|].
      intros ->. congruence.
    + by rewrite lookup_insert_eq.
  - intros j job o [[_ Hj]|[-> <-]]%lookup_snoc_Some; [by eapply Hs|done].
  - intros j job [[_ Hj]|[-> <-]]%lookup_snoc_Some; simpl.
    + destruct (Ho _ _ Hj) as (call & Hc & ?). exists call.
      split; [by apply lookup_snoc_old|done].
    + eexists. split; [apply list_lookup_middle; done|]. simpl. by subst.
  - intros c call j [[_ Hc]|[-> <-]]%lookup_snoc_Some Hr; simpl in *.
    + destruct (Hd _ _ _ Hc Hr) as (job & Hj & ?). exists job.
      split; [by apply lookup_snoc_old|done].
    + simplify_eq. eexists. split; [apply list_lookup_middle; done|done].
  - intros c call j [[_ Hc]|[-> <-]]%lookup_snoc_Some Hr; [|done].
    destruct (Hu _ _ _ Hc Hr) as (job & Hj & ?). exists job.
    split; [by apply lookup_snoc_old|done].
  - intros c call [[_ Hc]|[-> <-]]%lookup_snoc_Some Hr; [by eapply Hn|done].
  - by rewrite fmap_app, Hi.
Qed.

Lemma resume_handler_Some j x st st' :
  resume_handler j x st = Some st' →
  ∃ job k owner ops' written' body',
    jobs st !! j = Some job ∧ body job = Suspended k ∧
    calls st !! job_owner job = Some owner ∧
    run_segment (cookies_set (call_event owner)) (k x) (ops job) (response_cookies owner)
    = (ops', written', body') ∧
    st' = mkState (running st)
            (<[j := mkJob (job_token job) (job_owner job) ops' body' (promise job)]> (jobs st))
            (<[job_owner job :=
                 mkCall (call_event owner) written' (role owner) (returned owner)]> (calls st))
            (invocations st).
Proof.
  unfold resume_handler. intros H.
  destruct (jobs st !! j) as [job|] eqn:Hj; simpl in H; [|done].
  destruct (body job) as [k|] eqn:Hb; [|done].
  destruct (calls st !! job_owner job) as [owner|] eqn:Hc; simpl in H; [|done].
  destruct (run_segment _ _ _ _) as [[ops' written'] body'] eqn:Hseg.
  simplify_eq. by eexists job, k, owner, ops', written', body'.
Qed.

Lemma settle_job_Some j st st' :
  settle_job j st = Some st' →
  ∃ job o,
    jobs st !! j = Some job ∧ body job = Finished o ∧ promise job = None ∧
    st' = mkState (delete (job_token job) (running st))
            (<[j := mkJob (job_token job) (job_owner job) (ops job) (body job) (Some o)]> (jobs st))
            (calls st) (invocations st).
Proof.
  unfold settle_job. intros H.
  destruct (jobs st !! j) as [job|] eqn:Hj; simpl in H; [|done].
  destruct (body job) as [k|o] eqn:Hb; [done|].
  destruct (promise job) eqn:Hp; [done|]. simplify_eq. exists job, o. by rewrite Hb.
Qed.

Lemma resume_duplicate_Some c st st' :
  resume_duplicate c st = Some st' →
  ∃ call j existing o written r,
    calls st !! c = Some call ∧ role call = Duplicate j ∧ returned call = None ∧
    jobs st !! j = Some existing ∧ promise existing = Some o ∧
    settle_duplicate (cookies_set (call_event call)) (ops existing)
      (response_cookies call) o = (written, r) ∧
    st' = mkState (running st) (jobs st)
            (<[c := mkCall (call_event call) written (role call) (Some r)]> (calls st))
            (invocations st).
Proof.
  unfold resume_duplicate. intros H.
  destruct (calls st !! c) as [call|] eqn:Hc; simpl in H; [|done].
  destruct (role call) as [|j|j] eqn:Hr; try done.
  destruct (returned call) eqn:Hret; [done|].
  destruct (jobs st !! j) as [existing|] eqn:Hj; simpl in H; [|done].
  destruct (promise existing) as [o|] eqn:Hp; simpl in H; [|done].
  destruct (settle_duplicate _ _ _ _) as [written r] eqn:Hsd.
  simplify_eq. exists call, j, existing, o, written, r. by rewrite Hr.
Qed.

Lemma Inv_resume_handler j x st st' :
  Inv st → resume_handler j x st = Some st' → Inv st'.
Proof.
  intros [He Hp Hs Ho Hd Hu Hn Hi]
    (job & k & owner & ops' & written' & body' & Hj & Hb & Hc & Hseg & ->)%resume_handler_Some.
  destruct (Ho _ _ Hj) as (owner' & Hc' & Hrole & Hret & Hresp & Htok).
  assert (owner' = owner) as -> by congruence.
  assert (promise job = None) as Hpend.
  { destruct (promise job) as [o|] eqn:Hpr; [|done]. apply (Hs _ _ _ Hj) in Hpr. congruence. }
  pose proof (lookup_lt_Some _ _ _ Hj) as Hlj.
  pose proof (lookup_lt_Some _ _ _ Hc) as Hlc.
  rewrite Hresp in Hseg. apply run_segment_applied in Hseg as ->.
  split; simpl.
  - intros token j0 Hrun. destruct (He _ _ Hrun) as (job0 & Hj0 & Ht0 & Hp0).
    destruct (decide (j0 = j)) as [->|Hne].
    + simplify_eq. eexists. split; [by apply list_lookup_insert_eq|done].
    + exists job0. by rewrite list_lookup_insert_ne.
  - intros j0 job0 [(<- & <- & _)|[Hne Hj0]]%list_lookup_insert_Some Hp0; simpl in *.
    + by apply Hp.
    + by apply Hp.
  - intros j0 job0 o [(<- & <- & _)|[Hne Hj0]]%list_lookup_insert_Some Hp0; simpl in *.
    + congruence.
    + by eapply Hs.
  - intros j0 job0 [(<- & <- & _)|[Hne Hj0]]%list_lookup_insert_Some; simpl.
    + eexists. split; [by apply list_lookup_insert_eq|done].
    + destruct (Ho _ _ Hj0) as (call0 & Hc0 & Hr0 & ?). exists call0.
      split; [|done]. rewrite list_lookup_insert_ne; [done|].
      intros Heq. rewrite Heq in Hc. simplify_eq. congruence.
  - intros c call j0 [(<- & <- & _)|[Hne Hc0]]%list_lookup_insert_Some Hr; simpl in *.
    + assert (j0 = j) as -> by congruence.
      eexists. split; [by apply list_lookup_insert_eq|done].
    + destruct (Hd _ _ _ Hc0 Hr) as (job0 & Hj0 & Hown). exists job0. split; [|done].
      rewrite list_lookup_insert_ne; [done|]. intros <-. simplify_eq.
  - intros c call j0 [(<- & <- & _)|[Hne Hc0]]%list_lookup_insert_Some Hr; simpl in *.
    + congruence.
    + destruct (Hu _ _ _ Hc0 Hr) as (job0 & Hj0 & Ht0 & Hm).
      destruct (decide (j0 = j)) as [->|Hnej].
      * simplify_eq. eexists. split; [by apply list_lookup_insert_eq|]. simpl.
        split; [done|]. destruct (returned call); [|done].
        destruct Hm as (o & Hpo & _). congruence.
      * exists job0. by rewrite list_lookup_insert_ne.
  - intros c call [(<- & <- & _)|[Hne Hc0]]%list_lookup_insert_Some Hr; simpl in *.
    + congruence.
    + by eapply Hn.
  - rewrite list_fmap_insert. simpl. rewrite list_insert_id; [done|].
    by rewrite list_lookup_fmap, Hj.
Qed.

Lemma Inv_settle_job j st st' :
  Inv st → settle_job j st = Some st' → Inv st'.
Proof.
  intros [He Hp Hs Ho Hd Hu Hn Hi] (job & o & Hj & Hb & Hpend & ->)%settle_job_Some.
  pose proof (lookup_lt_Some _ _ _ Hj) as Hlj.
  pose proof (Hp _ _ Hj Hpend) as Hrun.
  split; simpl.
  - intros token j0 [Hne Hr0]%lookup_delete_Some.
    destruct (He _ _ Hr0) as (job0 & Hj0 & Ht0 & Hp0). exists job0.
    split; [|done]. rewrite list_lookup_insert_ne; [done|].
    intros <-. simplify_eq.
  - intros j0 job0 [(<- & <- & _)|[Hne Hj0]]%list_lookup_insert_Some Hp0; simpl in *.
    + done.
    + specialize (Hp _ _ Hj0 Hp0). rewrite lookup_delete_ne; [done|].
      intros Heq. rewrite Heq in Hrun. congruence.
  - intros j0 job0 o0 [(<- & <- & _)|[Hne Hj0]]%list_lookup_insert_Some Hp0; simpl in *.
    + congruence.
    + by eapply Hs.
  - intros j0 job0 [(<- & <- & _)|[Hne Hj0]]%list_lookup_insert_Some; simpl.
    + by apply Ho.
    + by apply Ho.
  - intros c call j0 Hc Hr. destruct (Hd _ _ _ Hc Hr) as (job0 & Hj0 & Hown).
    destruct (decide (j0 = j)) as [->|Hne].
    + simplify_eq. eexists. split; [by apply list_lookup_insert_eq|done].
    + exists job0. by rewrite list_lookup_insert_ne.
  - intros c call j0 Hc Hr. destruct (Hu _ _ _ Hc Hr) as (job0 & Hj0 & Ht0 & Hm).
    destruct (decide (j0 = j)) as [->|Hne].
    + simplify_eq. eexists. split; [by apply list_lookup_insert_eq|]. simpl.
      split; [done|]. destruct (returned call); [|done].
      destruct Hm as (o' & Hpo & _). congruence.
    + exists job0. by rewrite list_lookup_insert_ne.
  - done.
  - rewrite list_fmap_insert. simpl. rewrite list_insert_id; [done|].
    by rewrite list_lookup_fmap, Hj.
Qed.

Lemma Inv_resume_duplicate c st st' :
  Inv st → resume_duplicate c st = Some st' → Inv st'.
Proof.
  intros [He Hp Hs Ho Hd Hu Hn Hi]
    (call & j & existing & o & written & r & Hc & Hrole & Hret & Hj & Hpo & Hsd & ->)%resume_duplicate_Some.
  pose proof (lookup_lt_Some _ _ _ Hc) as Hlc.
  destruct (Hu _ _ _ Hc Hrole) as (job' & Hj' & Htok & Hresp).
  rewrite Hret in Hresp. rewrite Hresp in Hsd. assert (job' = existing) as -> by congruence.
  split; simpl; try done.
  - intros j0 job0 Hj0. destruct (Ho _ _ Hj0) as (call0 & Hc0 & Hr0 & ?).
    exists call0. split; [|done]. rewrite list_lookup_insert_ne; [done|].
    intros ->. congruence.
  - intros c0 call0 j0 [(<- & <- & _)|[Hne Hc0]]%list_lookup_insert_Some Hr; simpl in *.
    + congruence.
    + by eapply Hd.
  - intros c0 call0 j0 [(<- & <- & _)|[Hne Hc0]]%list_lookup_insert_Some Hr; simpl in *.
    + assert (j0 = j) as -> by congruence. exists existing. eauto.
    + by eapply Hu.
  - intros c0 call0 [(<- & <- & _)|[Hne Hc0]]%list_lookup_insert_Some Hr; simpl in *.
    + congruence.
    + by eapply Hn.
Qed.

Lemma Inv_step s st st' : Inv st → step s st = Some st' → Inv st'.
Proof.
  destruct s as [handler event|j x|j|c]; simpl; intros HI Hstep.
  - simplify_eq. by apply Inv_wrapped.
  - by eapply Inv_resume_handler.
  - by eapply Inv_settle_job.
  - by eapply Inv_resume_duplicate.
Qed.

Lemma Inv_exec tr : ∀ st st', Inv st → exec tr st = Some st' → Inv st'.
Proof.
  induction tr as [|s tr IH]; simpl; intros st st' HI Hexec; [by simplify_eq|].
  destruct (step s st) as [st1|] eqn:Hstep; simpl in Hexec; [|done].
  eapply IH; [|done]. by eapply Inv_step.
Qed.

Lemma Inv_reachable st : reachable st → Inv st.
Proof. intros [tr Htr]. eapply Inv_exec; [apply Inv_init|done]. Qed.

Lemma exec_app tr1 tr2 st st1 st2 :
  exec tr1 st = Some st1 → exec tr2 st1 = Some st2 → exec (tr1 ++ tr2) st = Some st2.
Proof.
  revert st. induction tr1 as [|s tr1 IH]; simpl; intros st H1 H2; [by simplify_eq|].
  destruct (step s st) as [st'|]; simpl in *; [|done]. by apply IH.
Qed.

Lemma reachable_exec tr st st' : reachable st → exec tr st = Some st' → reachable st'.
Proof. intros [tr0 H0] H. exists (tr0 ++ tr). by eapply exec_app. Qed.

(** ** The replay loop *)

Lemma replay_spec set ops : ∀ written,
  replay set ops written = (written ++ applied_prefix set ops, first_raise set ops).
Proof.
  induction ops as [|op rest IH]; simpl; intros written.
  - by rewrite app_nil_r.
  - destruct (set op); [by rewrite app_nil_r|]. rewrite IH. by rewrite <- app_assoc.
Qed.

Lemma first_raise_None set ops :
  first_raise set ops = None ↔ Forall (λ op, set op = None) ops.
Proof.
  induction ops as [|op rest IH]; simpl; [by split; [constructor|]|].
  destruct (set op) eqn:Hset.
  - split; [done|]. intros [Hop _]%Forall_cons. congruence.
  - rewrite IH. split; [by constructor|by intros [_ ?]%Forall_cons].
Qed.

Lemma applied_prefix_accepted set ops :
  Forall (λ op, set op = None) ops → applied_prefix set ops = ops.
Proof.
  induction 1 as [|op rest Hop _ IH]; simpl; [done|]. by rewrite Hop, IH.
Qed.

(** When no write raises, the duplicate applies every recorded op, in
    order, and settles as the job did. *)
Lemma settle_duplicate_accepted set ops written o :
  Forall (λ op, set op = None) ops →
  settle_duplicate set ops written o = (written ++ ops, o).
Proof.
  intros Hacc. unfold settle_duplicate. rewrite replay_spec.
  rewrite applied_prefix_accepted by done.
  apply first_raise_None in Hacc as ->. by destruct o.
Qed.

(** When a write raises, the duplicate is rejected with the exception of
    the first one that does. *)
Lemma settle_duplicate_raises set ops written o e :
  first_raise set ops = Some e →
  (settle_duplicate set ops written o).2 = Rejected e.
Proof.
  intros Hraise. unfold settle_duplicate.
  destruct o; repeat (rewrite ?replay_spec, ?Hraise; simpl); done.
Qed.

(** A duplicate that has returned did so from a settled job. *)
Lemma returned_duplicate st c call j job r :
  Inv st → calls st !! c = Some call → role call = Duplicate j →
  jobs st !! j = Some job → returned call = Some r →
  ∃ o, promise job = Some o ∧
    settle_duplicate (cookies_set (call_event call)) (ops job) [] o
    = (response_cookies call, r).
Proof.
  intros HI Hc Hr Hj Hret. destruct (inv_duplicate _ HI _ _ _ Hc Hr) as (job' & Hj' & _ & Hm).
  rewrite Hret in Hm. by simplify_eq.
Qed.

Lemma reachable_run tr : is_Some (exec tr init) → reachable (run tr).
Proof. intros [st Hst]. exists tr. unfold run. by rewrite Hst. Qed.

(** ** Missing token *)

(** C5. A call whose event carries no [form_once] cookie returns
    [fail(400, { message: 'Form token missing' })] whatever the state of
    the registry: the registry, the jobs and the log of handler
    invocations are left as they were, and the call is settled with that
    failure at once. *)
Theorem missing_token_determinism handler event st :
  cookies_get event COOKIE = None →
  wrapped handler event st =
    mkState (running st) (jobs st)
      (calls st ++ [mkCall event [] NoToken
         (Some (Fulfilled (ActionFailure 400%Z [("message", "Form token missing")])))])
      (invocations st)
  ∧ outcome (wrapped handler event st)
      (mkCall event [] NoToken
         (Some (Fulfilled (ActionFailure 400%Z [("message", "Form token missing")]))))
    = Some (Fulfilled (ActionFailure 400%Z [("message", "Form token missing")])).
Proof.
  intros Hget. split; [|done]. apply wrapped_missing. unfold token_of. by rewrite Hget.
Qed.

Lemma missing_token_determinism_witness :
  wrapped signin (event_without accept_all) (run [Request signin (event_with "abc123" accept_all)]) =
    mkState (running (run [Request signin (event_with "abc123" accept_all)]))
      (jobs (run [Request signin (event_with "abc123" accept_all)]))
      (calls (run [Request signin (event_with "abc123" accept_all)])
         ++ [mkCall (event_without accept_all) [] NoToken
               (Some (Fulfilled (ActionFailure 400%Z [("message", "Form token missing")])))])
      (invocations (run [Request signin (event_with "abc123" accept_all)]))
  ∧ outcome (wrapped signin (event_without accept_all)
               (run [Request signin (event_with "abc123" accept_all)]))
      (mkCall (event_without accept_all) [] NoToken
         (Some (Fulfilled (ActionFailure 400%Z [("message", "Form token missing")]))))
    = Some (Fulfilled (ActionFailure 400%Z [("message", "Form token missing")])).
Proof. apply missing_token_determinism. reflexivity. Defined.

(** C9. A token cookie that is present but empty is falsy: the call goes
    exactly as one without the cookie.  It returns the same failure,
    leaves registry, jobs and invocation log untouched, and is keyed by no
    token. *)
Theorem empty_token_is_missing handler event st :
  cookies_get event COOKIE = Some "" →
  token_of event = None
  ∧ wrapped handler event st =
    mkState (running st) (jobs st)
      (calls st ++ [mkCall event [] NoToken
         (Some (Fulfilled (ActionFailure 400%Z [("message", "Form token missing")])))])
      (invocations st).
Proof.
  intros Hget. assert (token_of event = None) as Htok.
  { unfold token_of. by rewrite Hget. }
  split; [done|]. by apply wrapped_missing.
Qed.

Lemma empty_token_is_missing_witness :
  token_of (event_with "" accept_all) = None
  ∧ wrapped signin (event_with "" accept_all) init =
    mkState (running init) (jobs init)
      (calls init ++ [mkCall (event_with "" accept_all) [] NoToken
         (Some (Fulfilled (ActionFailure 400%Z [("message", "Form token missing")])))])
      (invocations init).
Proof. apply empty_token_is_missing. reflexivity. Defined.

(** ** The registry *)

(** C6. In every reachable state and for every token: at most one job of
    that token has a pending promise; an entry of the registry names a job
    of that token whose promise is pending; and when the registry has no
    entry for the token, every job ever started for it (if any) has
    settled. *)
Theorem registry_invariant st token :
  reachable st →
  (∀ j1 j2 job1 job2,
     jobs st !! j1 = Some job1 → jobs st !! j2 = Some job2 →
     job_token job1 = token → job_token job2 = token →
     promise job1 = None → promise job2 = None → j1 = j2)
  ∧ (∀ j, running st !! token = Some j →
       ∃ job, jobs st !! j = Some job ∧ job_token job = token ∧ promise job = None)
  ∧ (running st !! token = None →
       ∀ j job, jobs st !! j = Some job → job_token job = token →
         ∃ o, promise job = Some o ∧ body job = Finished o).
Proof.
  intros HI%Inv_reachable. split; [|split].
  - intros j1 j2 job1 job2 Hj1 Hj2 Ht1 Ht2 Hp1 Hp2.
    pose proof (inv_pending _ HI _ _ Hj1 Hp1) as H1.
    pose proof (inv_pending _ HI _ _ Hj2 Hp2) as H2. congruence.
  - intros j Hrun. by apply (inv_entry _ HI).
  - intros Hnone j job Hj Ht. destruct (promise job) as [o|] eqn:Hp.
    + exists o. split; [done|]. by eapply (inv_promise _ HI).
    + pose proof (inv_pending _ HI _ _ Hj Hp). congruence.
Qed.

Lemma registry_invariant_witness :
  (∀ j1 j2 job1 job2,
     jobs (run three_calls) !! j1 = Some job1 → jobs (run three_calls) !! j2 = Some job2 →
     job_token job1 = "abc123" → job_token job2 = "abc123" →
     promise job1 = None → promise job2 = None → j1 = j2)
  ∧ (∀ j, running (run three_calls) !! "abc123" = Some j →
       ∃ job, jobs (run three_calls) !! j = Some job ∧ job_token job = "abc123" ∧
         promise job = None)
  ∧ (running (run three_calls) !! "abc123" = None →
       ∀ j job, jobs (run three_calls) !! j = Some job → job_token job = "abc123" →
         ∃ o, promise job = Some o ∧ body job = Finished o).
Proof.
  apply registry_invariant. apply reachable_run. vm_compute. eexists. reflexivity.
Defined.

(** ** While a job is in flight *)

(** A step other than the [finally] reaction of job [j] leaves the entry
    of [j] in place, invokes no handler for its token, and turns every
    call that presents the token into a duplicate of [j]. *)
Lemma in_flight_step token j (n : nat) s st st' :
  Inv st → running st !! token = Some j → settles j s = false →
  step s st = Some st' →
  (∀ c call, calls st !! c = Some call → n ≤ c →
     token_of (call_event call) = Some token → role call = Duplicate j) →
  running st' !! token = Some j
  ∧ invocations_for token st' = invocations_for token st
  ∧ (∀ c call, calls st' !! c = Some call → n ≤ c →
       token_of (call_event call) = Some token → role call = Duplicate j).
Proof.
  intros HI Hrun Hs Hstep Hold. destruct s as [handler event|j' x|j'|c']; simpl in *.
  - injection Hstep as <-. destruct (token_of event) as [token'|] eqn:Htok.
    2:{ rewrite wrapped_missing by done. simpl. split_and!; [done..|].
        intros c call [[_ Hc]|[-> <-]]%lookup_snoc_Some Hn Ht; [by eapply Hold|].
        simpl in Ht. congruence. }
    destruct (running st !! token') as [j''|] eqn:Hrun'.
    + rewrite (wrapped_duplicate _ _ _ token' j'') by done. simpl. split_and!; [done..|].
      intros c call [[_ Hc]|[-> <-]]%lookup_snoc_Some Hn Ht; [by eapply Hold|].
      simpl in *. congruence.
    + rewrite (wrapped_owner _ _ _ token') by done.
      destruct (run_segment _ _ _ _) as [[ops' written'] body']. simpl.
      assert (token' ≠ token) as Hne by congruence. split_and!.
      * by rewrite lookup_insert_ne.
      * unfold invocations_for. simpl. rewrite filter_app, length_app.
        rewrite filter_cons_False by done. rewrite filter_nil. simpl. lia.
      * intros c call [[_ Hc]|[-> <-]]%lookup_snoc_Some Hn Ht; [by eapply Hold|].
        simpl in *. congruence.
  - apply resume_handler_Some in Hstep
      as (job & k & owner & ops' & written' & body' & Hj & Hb & Hc & Hseg & ->).
    simpl. split_and!; [done..|].
    intros c call [(<- & <- & _)|[Hne Hc0]]%list_lookup_insert_Some Hn Ht; simpl in *.
    + by eapply Hold.
    + by eapply Hold.
  - apply settle_job_Some in Hstep as (job & o & Hj & Hb & Hpend & ->). simpl.
    split_and!; [|done..]. rewrite lookup_delete_ne; [done|].
    intros Heq. pose proof (inv_pending _ HI _ _ Hj Hpend) as Hrun'.
    rewrite Heq, Hrun in Hrun'. apply bool_decide_eq_false in Hs. congruence.
  - apply resume_duplicate_Some in Hstep
      as (call0 & j0 & existing & o & written & r & Hc & Hrole & Hret & Hj & Hpo & Hsd & ->).
    simpl. split_and!; [done..|].
    intros c call [(<- & <- & _)|[Hne Hc0]]%list_lookup_insert_Some Hn Ht; simpl in *.
    + by eapply Hold.
    + by eapply Hold.
Qed.

Lemma in_flight_exec token j (n : nat) tr : ∀ st st',
  Inv st → running st !! token = Some j → existsb (settles j) tr = false →
  exec tr st = Some st' →
  (∀ c call, calls st !! c = Some call → n ≤ c →
     token_of (call_event call) = Some token → role call = Duplicate j) →
  running st' !! token = Some j
  ∧ invocations_for token st' = invocations_for token st
  ∧ (∀ c call, calls st' !! c = Some call → n ≤ c →
       token_of (call_event call) = Some token → role call = Duplicate j).
Proof.
  induction tr as [|s tr IH]; simpl; intros st st' HI Hrun Hs Hexec Hold.
  - by simplify_eq.
  - apply orb_false_iff in Hs as [Hs Htr].
    destruct (step s st) as [st1|] eqn:Hstep; simpl in Hexec; [|done].
    destruct (in_flight_step token j n s st st1) as (Hrun1 & Hinv1 & Hold1); [done..|].
    destruct (IH st1 st') as (Hrun' & Hinv' & Hold'); [by eapply Inv_step|done..|].
    split_and!; [done| |done]. by rewrite Hinv'.
Qed.

(** The owner's call: the handler is invoked once and its job is in the
    registry when [wrapped] yields. *)
Lemma owner_call handler event st token :
  token_of event = Some token → running st !! token = None →
  running (wrapped handler event st) !! token = Some (length (jobs st))
  ∧ invocations (wrapped handler event st) = invocations st ++ [token]
  ∧ length (calls (wrapped handler event st)) = S (length (calls st))
  ∧ ∃ ops written body,
      run_segment (cookies_set event) (handler event) [] [] = (ops, written, body)
      ∧ jobs (wrapped handler event st) =
          jobs st ++ [mkJob token (length (calls st)) ops body None]
      ∧ calls (wrapped handler event st) =
          calls st ++ [mkCall event written (Owner (length (jobs st))) None].
Proof.
  intros Htok Hrun. rewrite (wrapped_owner _ _ _ token) by done.
  destruct (run_segment _ _ _ _) as [[ops' written'] body']. simpl.
  split_and!; [by rewrite lookup_insert_eq|done|by rewrite length_app; simpl; lia|].
  by exists ops', written', body'.
Qed.

(** From the owner's call to any later state before its job settles. *)
Lemma owner_job_stays_registered st handler event token tr st' :
  reachable st →
  token_of event = Some token →
  running st !! token = None →
  exec (Request handler event :: tr) st = Some st' →
  existsb (settles (length (jobs st))) tr = false →
  running (wrapped handler event st) !! token = Some (length (jobs st))
  ∧ running st' !! token = Some (length (jobs st)).
Proof.
  intros HI%Inv_reachable Htok Hrun Hexec Hs. simpl in Hexec.
  destruct (owner_call handler event st token Htok Hrun) as (Hreg & _ & Hlen & _).
  destruct (in_flight_exec token (length (jobs st)) (S (length (calls st))) tr
              (wrapped handler event st) st') as (Hrun' & _); try done.
  - by apply Inv_wrapped.
  - intros c call Hc Hn. apply lookup_lt_Some in Hc. lia.
Qed.

(** C1. Let a call present a token that has no job in flight, and let any
    steps follow, among them any number of further calls with the same
    token, none of them being the settlement of the job this first call
    starts.  Then the first call has registered its job by the time it
    yields (lookup, invocation and registration are one synchronous
    segment), the job is still registered at the end, the handler body
    has been invoked exactly once for the token, and every later call
    that presented the token is a duplicate waiting for that job. *)
Theorem single_execution st handler event token tr st' :
  reachable st →
  token_of event = Some token →
  running st !! token = None →
  exec (Request handler event :: tr) st = Some st' →
  existsb (settles (length (jobs st))) tr = false →
  running (wrapped handler event st) !! token = Some (length (jobs st))
  ∧ running st' !! token = Some (length (jobs st))
  ∧ invocations_for token st' = S (invocations_for token st)
  ∧ (∀ c call, calls st' !! c = Some call → length (calls st) < c →
       token_of (call_event call) = Some token →
       role call = Duplicate (length (jobs st))).
Proof.
  intros HI%Inv_reachable Htok Hrun Hexec Hs. simpl in Hexec.
  destruct (owner_call handler event st token Htok Hrun) as (Hreg & Hlog & Hlen & _).
  destruct (in_flight_exec token (length (jobs st)) (S (length (calls st))) tr
              (wrapped handler event st) st') as (Hrun' & Hinv' & Hdup); try done.
  - by apply Inv_wrapped.
  - intros c call Hc Hn. apply lookup_lt_Some in Hc. lia.
  - split_and!; [done|done| |].
    + rewrite Hinv'. unfold invocations_for. rewrite Hlog, filter_app, length_app.
      rewrite filter_cons_True by done. rewrite filter_nil. simpl. lia.
    + intros c call Hc Hn Ht. apply (Hdup c call); [done|lia|done].
Qed.

Lemma reachable_init : reachable init.
Proof. by exists []. Qed.

Lemma single_execution_witness :
  let event := event_with "abc123" accept_all in
  let tr := [Request signin event; Request signin event; HandlerResumes 0 []] in
  running (wrapped signin event init) !! "abc123" = Some 0
  ∧ running (run (Request signin event :: tr)) !! "abc123" = Some 0
  ∧ invocations_for "abc123" (run (Request signin event :: tr)) = 1
  ∧ (∀ c call, calls (run (Request signin event :: tr)) !! c = Some call → 0 < c →
       token_of (call_event call) = Some "abc123" → role call = Duplicate 0).
Proof.
  apply (single_execution init signin (event_with "abc123" accept_all) "abc123"
           [Request signin (event_with "abc123" accept_all);
            Request signin (event_with "abc123" accept_all); HandlerResumes 0 []]).
  - apply reachable_init.
  - reflexivity.
  - reflexivity.
  - vm_compute. reflexivity.
  - reflexivity.
Defined.

(** ** After settlement *)

(** The log of invocations and the heap of jobs only grow. *)
Lemma step_grows s st st' :
  step s st = Some st' →
  length (jobs st) ≤ length (jobs st') ∧ ∃ more, invocations st' = invocations st ++ more.
Proof.
  destruct s as [handler event|j x|j|c]; simpl; intros Hstep.
  - injection Hstep as <-. unfold wrapped.
    destruct (cookies_get event COOKIE) as [token|]; [|by split; [|exists []; rewrite app_nil_r]].
    destruct (decide (token = "")); [by split; [|exists []; rewrite app_nil_r]|].
    destruct (running st !! token); [by split; [|exists []; rewrite app_nil_r]|].
    destruct (run_segment _ _ _ _) as [[ops' written'] body']. simpl.
    split; [rewrite length_app; lia|by eexists].
  - apply resume_handler_Some in Hstep as (job & k & owner & ops' & written' & body' & _ & _ & _ & _ & ->).
    simpl. rewrite length_insert. by split; [|exists []; rewrite app_nil_r].
  - apply settle_job_Some in Hstep as (job & o & _ & _ & _ & ->).
    simpl. rewrite length_insert. by split; [|exists []; rewrite app_nil_r].
  - apply resume_duplicate_Some in Hstep
      as (call0 & j0 & existing & o & written & r & _ & _ & _ & _ & _ & _ & ->).
    simpl. by split; [|exists []; rewrite app_nil_r].
Qed.

Lemma exec_grows tr : ∀ st st',
  exec tr st = Some st' →
  length (jobs st) ≤ length (jobs st') ∧ ∃ more, invocations st' = invocations st ++ more.
Proof.
  induction tr as [|s tr IH]; simpl; intros st st' Hexec.
  - simplify_eq. by split; [|exists []; rewrite app_nil_r].
  - destruct (step s st) as [st1|] eqn:Hstep; simpl in Hexec; [|done].
    destruct (step_grows _ _ _ Hstep) as (Hl1 & more1 & Hm1).
    destruct (IH _ _ Hexec) as (Hl2 & more2 & Hm2).
    split; [lia|]. exists (more1 ++ more2). by rewrite Hm2, Hm1, app_assoc.
Qed.

(** A token stays out of the registry until a call presents it. *)
Lemma absent_exec token tr : ∀ st st',
  running st !! token = None → existsb (presents token) tr = false →
  exec tr st = Some st' → running st' !! token = None.
Proof.
  induction tr as [|s tr IH]; simpl; intros st st' Hrun Hp Hexec; [by simplify_eq|].
  apply orb_false_iff in Hp as [Hs Htr].
  destruct (step s st) as [st1|] eqn:Hstep; simpl in Hexec; [|done].
  eapply IH; [|done..]. clear IH Hexec Htr.
  destruct s as [handler event|j x|j|c]; simpl in *.
  - injection Hstep as <-. apply bool_decide_eq_false in Hs.
    destruct (token_of event) as [token'|] eqn:Htok.
    2:{ by rewrite wrapped_missing. }
    destruct (running st !! token') as [j|] eqn:Hrun'.
    + by rewrite (wrapped_duplicate _ _ _ token' j).
    + rewrite (wrapped_owner _ _ _ token') by done.
      destruct (run_segment _ _ _ _) as [[ops' written'] body']. simpl.
      rewrite lookup_insert_ne; [done|congruence].
  - by apply resume_handler_Some in Hstep as (job & k & owner & ops' & written' & body' & _ & _ & _ & _ & ->).
  - apply settle_job_Some in Hstep as (job & o & _ & _ & _ & ->). simpl.
    apply lookup_delete_None. by right.
  - by apply resume_duplicate_Some in Hstep
      as (call0 & j0 & existing & o & written & r & _ & _ & _ & _ & _ & _ & ->).
Qed.

Lemma invocations_for_job st j job :
  Inv st → jobs st !! j = Some job → 1 ≤ invocations_for (job_token job) st.
Proof.
  intros HI Hj. unfold invocations_for. rewrite (inv_invocations _ HI).
  assert (job_token job ∈ filter (λ t, t = job_token job) (job_token <$> jobs st)) as Hin.
  { apply list_elem_of_filter. split; [done|].
    apply list_elem_of_fmap_2. by eapply list_elem_of_lookup_2. }
  destruct (filter _ _); [by apply elem_of_nil in Hin|simpl; lia].
Qed.

Lemma invocations_for_app token st st' more :
  invocations st' = invocations st ++ more →
  invocations_for token st' =
  invocations_for token st + length (filter (λ t, t = token) more).
Proof. intros Heq. unfold invocations_for. by rewrite Heq, filter_app, length_app. Qed.

(** C7. Once the job of a token has settled, its entry is gone; it stays
    gone until a call presents the token again, and that call runs the
    handler anew: the handler body is invoked a further time (so at least
    twice for the token), a fresh job, distinct from the settled one, is
    created from the first segment of the handler and registered, and the
    call is its owner. *)
Theorem post_settlement_independence st j job st1 tr st2 handler event :
  reachable st →
  jobs st !! j = Some job →
  settle_job j st = Some st1 →
  exec tr st1 = Some st2 →
  existsb (presents (job_token job)) tr = false →
  token_of event = Some (job_token job) →
  running st1 !! job_token job = None
  ∧ running st2 !! job_token job = None
  ∧ invocations (wrapped handler event st2) = invocations st2 ++ [job_token job]
  ∧ 2 ≤ invocations_for (job_token job) (wrapped handler event st2)
  ∧ running (wrapped handler event st2) !! job_token job = Some (length (jobs st2))
  ∧ j < length (jobs st2)
  ∧ ∃ ops written body,
      run_segment (cookies_set event) (handler event) [] [] = (ops, written, body)
      ∧ jobs (wrapped handler event st2) =
          jobs st2 ++ [mkJob (job_token job) (length (calls st2)) ops body None]
      ∧ calls (wrapped handler event st2) =
          calls st2 ++ [mkCall event written (Owner (length (jobs st2))) None].
Proof.
  intros HI%Inv_reachable Hj Hsettle Hexec Hp Htok.
  pose proof (invocations_for_job _ _ _ HI Hj) as Hpos.
  pose proof (lookup_lt_Some _ _ _ Hj) as Hlj.
  apply settle_job_Some in Hsettle as (job' & o & Hj' & Hb & Hpend & ->).
  assert (job' = job) as -> by congruence.
  assert (running (mkState (delete (job_token job) (running st))
            (<[j := mkJob (job_token job) (job_owner job) (ops job) (body job) (Some o)]> (jobs st))
            (calls st) (invocations st)) !! job_token job = None) as Hgone.
  { simpl. apply lookup_delete_eq. }
  pose proof (absent_exec _ _ _ _ Hgone Hp Hexec) as Hgone2.
  destruct (exec_grows _ _ _ Hexec) as (Hlen & more & Hmore). simpl in Hlen, Hmore.
  rewrite length_insert in Hlen.
  destruct (owner_call handler event st2 _ Htok Hgone2) as (Hreg & Hlog & _ & Hjob).
  split_and!; try done; [|lia].
  rewrite (invocations_for_app _ st2 _ [job_token job]) by done.
  rewrite (invocations_for_app _ st st2 more) by done.
  rewrite filter_cons_True by done. simpl. lia.
Qed.

Lemma post_settlement_independence_witness :
  let event := event_with "abc123" accept_all in
  let st := run [Request signin event; Request signin event; HandlerResumes 0 []] in
  let st2 := run [Request signin event; Request signin event; HandlerResumes 0 [];
                  JobSettles 0; DuplicateResumes 1] in
  running (run [Request signin event; Request signin event; HandlerResumes 0 []; JobSettles 0])
    !! "abc123" = None
  ∧ running st2 !! "abc123" = None
  ∧ invocations (wrapped signin event st2) = invocations st2 ++ ["abc123"]
  ∧ 2 ≤ invocations_for "abc123" (wrapped signin event st2)
  ∧ running (wrapped signin event st2) !! "abc123" = Some 1
  ∧ 0 < 1
  ∧ ∃ ops written body,
      run_segment accept_all (signin event) [] [] = (ops, written, body)
      ∧ jobs (wrapped signin event st2) = jobs st2 ++ [mkJob "abc123" 2 ops body None]
      ∧ calls (wrapped signin event st2) = calls st2 ++ [mkCall event written (Owner 1) None].
Proof.
  apply (post_settlement_independence
           (run [Request signin (event_with "abc123" accept_all);
                 Request signin (event_with "abc123" accept_all); HandlerResumes 0 []])
           0
           (mkJob "abc123" 0 [session_op; flash_op] (Finished (Rejected (Redirect 303%Z "/"))) None)
           (run [Request signin (event_with "abc123" accept_all);
                 Request signin (event_with "abc123" accept_all); HandlerResumes 0 [];
                 JobSettles 0])
           [DuplicateResumes 1]
           (run [Request signin (event_with "abc123" accept_all);
                 Request signin (event_with "abc123" accept_all); HandlerResumes 0 [];
                 JobSettles 0; DuplicateResumes 1])
           signin (event_with "abc123" accept_all)).
  - apply reachable_run. vm_compute. eexists. reflexivity.
  - vm_compute. reflexivity.
  - vm_compute. reflexivity.
  - vm_compute. reflexivity.
  - reflexivity.
  - reflexivity.
Defined.

(** ** What the callers of one job get *)

Lemma applied_accepted set ops :
  Forall (λ op, set op = None) ops → applied set ops = ops.
Proof.
  unfold applied. induction 1 as [|op rest Hop _ IH]; [done|].
  rewrite filter_cons_True by done. by rewrite IH.
Qed.

(** Steps never change the event or the role of a call. *)
Lemma step_keeps_call s st st' c call :
  step s st = Some st' → calls st !! c = Some call →
  ∃ call', calls st' !! c = Some call' ∧ call_event call' = call_event call
    ∧ role call' = role call.
Proof.
  intros Hstep Hc. pose proof (lookup_lt_Some _ _ _ Hc) as Hlc.
  destruct s as [handler event|j x|j|c0]; simpl in Hstep.
  - injection Hstep as <-. exists call. split; [|done]. unfold wrapped.
    destruct (cookies_get event COOKIE) as [token|]; [|by apply lookup_snoc_old].
    destruct (decide (token = "")); [by apply lookup_snoc_old|].
    destruct (running st !! token); [by apply lookup_snoc_old|].
    destruct (run_segment _ _ _ _) as [[ops' written'] body']. by apply lookup_snoc_old.
  - apply resume_handler_Some in Hstep
      as (job & k & owner & ops' & written' & body' & Hj & Hb & Hown & Hseg & ->). simpl.
    destruct (decide (job_owner job = c)) as [<-|Hne].
    + eexists. split; [by apply list_lookup_insert_eq|]. by simplify_eq.
    + exists call. by rewrite list_lookup_insert_ne.
  - apply settle_job_Some in Hstep as (job & o & _ & _ & _ & ->). by exists call.
  - apply resume_duplicate_Some in Hstep
      as (call0 & j0 & existing & o & written & r & Hc0 & Hrole & Hret & Hj & Hpo & Hsd & ->).
    simpl. destruct (decide (c0 = c)) as [->|Hne].
    + eexists. split; [by apply list_lookup_insert_eq|]. by simplify_eq.
    + exists call. by rewrite list_lookup_insert_ne.
Qed.

Lemma exec_keeps_call tr : ∀ st st' c call,
  exec tr st = Some st' → calls st !! c = Some call →
  ∃ call', calls st' !! c = Some call' ∧ call_event call' = call_event call
    ∧ role call' = role call.
Proof.
  induction tr as [|s tr IH]; simpl; intros st st' c call Hexec Hc.
  - simplify_eq. by exists call.
  - destruct (step s st) as [st1|] eqn:Hstep; simpl in Hexec; [|done].
    destruct (step_keeps_call _ _ _ _ _ Hstep Hc) as (call1 & Hc1 & He1 & Hr1).
    destruct (IH _ _ _ _ Hexec Hc1) as (call' & Hc' & He' & Hr').
    exists call'. split; [done|]. split; congruence.
Qed.

(** A call that shares a job, and on which the replay raised nothing,
    settles as the job's promise does. *)
Lemma shared_outcome st j job c call :
  Inv st → jobs st !! j = Some job → calls st !! c = Some call → shares call j →
  (role call = Duplicate j → accepts (call_event call) (ops job)) →
  outcome st call ≠ None → outcome st call = promise job.
Proof.
  intros HI Hj Hc [Hr|Hr] Hacc Hsome; unfold outcome in *; rewrite Hr in *.
  - by rewrite Hj.
  - destruct (returned call) as [r|] eqn:Hret; [|done].
    destruct (returned_duplicate _ _ _ _ _ _ HI Hc Hr Hj Hret) as (o & Hp & Hsd).
    rewrite settle_duplicate_accepted in Hsd by by apply Hacc. by simplify_eq.
Qed.

(** X12. Where the replay raises nothing, the callers of one job get one
    outcome.  In every reachable state, any two calls that share a job
    (its owner, or duplicates that joined it) and have settled got the
    same outcome, the one the job's promise settled with, whether a
    returned value, an [ActionFailure] or a thrown [Redirect]; for a
    duplicate this needs that its own [cookies.set] raised on none of
    the replayed writes. *)
Theorem identical_result st j job c1 c2 call1 call2 :
  reachable st →
  jobs st !! j = Some job →
  calls st !! c1 = Some call1 → calls st !! c2 = Some call2 →
  shares call1 j → shares call2 j →
  (role call1 = Duplicate j → accepts (call_event call1) (ops job)) →
  (role call2 = Duplicate j → accepts (call_event call2) (ops job)) →
  outcome st call1 ≠ None → outcome st call2 ≠ None →
  outcome st call1 = outcome st call2 ∧ outcome st call1 = promise job.
Proof.
  intros HI%Inv_reachable Hj Hc1 Hc2 Hs1 Hs2 Ha1 Ha2 Ho1 Ho2.
  rewrite (shared_outcome st j job c1 call1), (shared_outcome st j job c2 call2); done.
Qed.

Lemma accepts_accept_all event ops : cookies_set event = accept_all → accepts event ops.
Proof. intros Hset. unfold accepts. rewrite Hset. by apply Forall_forall. Qed.

Lemma identical_result_witness :
  outcome (run three_calls) (calls (run three_calls) !!! 0)
  = outcome (run three_calls) (calls (run three_calls) !!! 2)
  ∧ outcome (run three_calls) (calls (run three_calls) !!! 0)
  = promise (jobs (run three_calls) !!! 0).
Proof.
  apply (identical_result (run three_calls) 0 (jobs (run three_calls) !!! 0) 0 2).
  - apply reachable_run. vm_compute. eexists. reflexivity.
  - vm_compute. reflexivity.
  - vm_compute. reflexivity.
  - vm_compute. reflexivity.
  - left. reflexivity.
  - right. reflexivity.
  - intros _. apply accepts_accept_all. reflexivity.
  - intros _. apply accepts_accept_all. reflexivity.
  - vm_compute. discriminate.
  - vm_compute. discriminate.
Defined.

(** C2.  The code departs from the claim at this input.  Two calls
    present the token ["abc123"] on events whose [cookies.set] raises on
    [flash_op]; the owner's handler catches that exception, awaits and
    returns a value.  The owner's call is fulfilled with the value.  The
    duplicate's replay raises on [flash_op] inside the [try] block, the
    [catch] block runs the replay again, it raises again, and the
    duplicate's call is rejected with the exception of the write.  The
    two callers of one job do not get the same outcome, against the
    claim and against the comment above [onceAction], by which
    duplicates return the same response. *)
Lemma identical_result_counterexample :
  let st := run (rejected_write (tolerant (Return (Plain [("ok", "1")])))
                   (tolerant (Return (Plain [("ok", "1")])))) in
  role (calls st !!! 0) = Owner 0
  ∧ role (calls st !!! 1) = Duplicate 0
  ∧ outcome st (calls st !!! 0) = Some (Fulfilled (Plain [("ok", "1")]))
  ∧ outcome st (calls st !!! 1) = Some (Rejected (Exception "Cookie is too large")).
Proof. vm_compute. done. Qed.

(** A duplicate can resume as soon as the promise it awaits has settled. *)
Lemma resume_duplicate_ready c st call j existing o :
  calls st !! c = Some call → role call = Duplicate j → returned call = None →
  jobs st !! j = Some existing → promise existing = Some o →
  resume_duplicate c st =
  Some (mkState (running st) (jobs st)
          (<[c := mkCall (call_event call)
                    (settle_duplicate (cookies_set (call_event call)) (ops existing)
                       (response_cookies call) o).1
                    (role call)
                    (Some (settle_duplicate (cookies_set (call_event call)) (ops existing)
                             (response_cookies call) o).2)]> (calls st))
          (invocations st)).
Proof.
  intros Hc Hr Hret Hj Hp. unfold resume_duplicate.
  rewrite Hc. simpl. rewrite Hr, Hret, Hj. simpl. rewrite Hp. simpl.
  by destruct (settle_duplicate _ _ _ _).
Qed.

(** ** Settlement and failure *)

(** C3.  The code departs from the claim at this input.  The handler
    catches the exception of a write that [cookies.set] rejects and then
    throws a redirect.  The owner is rejected with the redirect.  In the
    duplicate, [await existing.promise] throws the redirect into the
    [catch] block, whose replay raises on [flash_op] before [throw err]
    is reached: the duplicate is rejected with the exception of the
    write, not with the handler's error.  The registry entry is gone all
    the same, as the claim says. *)
Lemma error_fan_out_counterexample :
  let st := run (rejected_write (tolerant (kitRedirect "/")) (tolerant (kitRedirect "/"))) in
  role (calls st !!! 1) = Duplicate 0
  ∧ promise (jobs st !!! 0) = Some (Rejected (Redirect 303%Z "/"))
  ∧ outcome st (calls st !!! 0) = Some (Rejected (Redirect 303%Z "/"))
  ∧ outcome st (calls st !!! 1) = Some (Rejected (Exception "Cookie is too large"))
  ∧ running st !! "abc123" = None.
Proof. vm_compute. done. Qed.

(** ** Replay of the recorded writes *)

(** What the callers of a job hold of its recorded ops. *)
Lemma recorded_ops_reach_callers st j job :
  reachable st →
  jobs st !! j = Some job →
  (∃ owner, calls st !! job_owner job = Some owner ∧ role owner = Owner j
     ∧ response_cookies owner = applied (cookies_set (call_event owner)) (ops job)
     ∧ (accepts (call_event owner) (ops job) → response_cookies owner = ops job))
  ∧ (∀ c call, calls st !! c = Some call → role call = Duplicate j →
       (∀ j' job', jobs st !! j' = Some job' → job_owner job' ≠ c)
       ∧ (returned call = None → response_cookies call = [])
       ∧ (returned call ≠ None → accepts (call_event call) (ops job) →
            response_cookies call = ops job)).
Proof.
  intros HI%Inv_reachable Hj. split.
  - destruct (inv_owner _ HI _ _ Hj) as (owner & Hc & Hr & _ & Hresp & _).
    exists owner. split_and!; [done..|]. intros Hacc. rewrite Hresp.
    by apply applied_accepted.
  - intros c call Hc Hr. split_and!.
    + intros j' job' Hj' Heq. destruct (inv_owner _ HI _ _ Hj') as (owner & Hc' & Hr' & _).
      rewrite Heq in Hc'. congruence.
    + intros Hret. destruct (inv_duplicate _ HI _ _ _ Hc Hr) as (job' & _ & _ & Hm).
      by rewrite Hret in Hm.
    + intros Hret Hacc. destruct (returned call) as [r|] eqn:Hr'; [|done].
      destruct (returned_duplicate _ _ _ _ _ _ HI Hc Hr Hj Hr') as (o & Hp & Hsd).
      rewrite settle_duplicate_accepted in Hsd by done. by simplify_eq.
Qed.

(** Against C4 as stated: the job recorded [session_op; flash_op]; the
    event's [cookies.set] rejects [flash_op]; the duplicate's response
    received [session_op] twice and [flash_op] never, and the owner's
    response did not receive [flash_op] either. *)
Lemma side_effect_replay_counterexample :
  let st := run (rejected_write (tolerant (Return (fail 400%Z [("errors", "Wrong password")])))
                   (tolerant (Return (fail 400%Z [("errors", "Wrong password")])))) in
  ops (jobs st !!! 0) = [session_op; flash_op]
  ∧ role (calls st !!! 1) = Duplicate 0
  ∧ returned (calls st !!! 1) ≠ None
  ∧ response_cookies (calls st !!! 1) = [session_op; session_op]
  ∧ response_cookies (calls st !!! 0) = [session_op].
Proof. vm_compute. done. Qed.


(** ** One registry for all wrapped handlers *)

(** X14. One registry serves every wrapped handler.  Let the action
    wrapping [f] start a job for a token, and let any steps follow that
    do not settle this job.  A call of the action wrapping another
    handler [g] with the same token then joins that job: the resulting
    state does not depend on [g], no job is added and the log of
    invocations is unchanged, so [g] is not invoked.  When this call has
    resumed, and its own [cookies.set] raised on none of the replayed
    writes, it has settled as the job of [f] did and its response holds
    the writes that job recorded. *)
Theorem shared_registry st f g event_f event_g token tr st2 :
  reachable st →
  token_of event_f = Some token → token_of event_g = Some token →
  running st !! token = None →
  exec (Request f event_f :: tr) st = Some st2 →
  existsb (settles (length (jobs st))) tr = false →
  (∃ ops written body,
     run_segment (cookies_set event_f) (f event_f) [] [] = (ops, written, body)
     ∧ jobs (wrapped f event_f st) !! length (jobs st)
       = Some (mkJob token (length (calls st)) ops body None))
  ∧ wrapped g event_g st2 =
      mkState (running st2) (jobs st2)
        (calls st2 ++ [mkCall event_g [] (Duplicate (length (jobs st))) None])
        (invocations st2)
  ∧ (∀ tr' st3 call job r,
       exec tr' (wrapped g event_g st2) = Some st3 →
       calls st3 !! length (calls st2) = Some call →
       jobs st3 !! length (jobs st) = Some job →
       returned call = Some r →
       accepts event_g (ops job) →
       promise job = Some r ∧ response_cookies call = ops job).
Proof.
  intros Hreach Htok_f Htok_g Hrun Hexec Hs.
  destruct (owner_job_stays_registered st f event_f token tr st2) as (Hreg & Hrun2); [done..|].
  pose proof (wrapped_duplicate g event_g st2 token _ Htok_g Hrun2) as Hjoin.
  split_and!; [|done|].
  - destruct (owner_call f event_f st token Htok_f Hrun) as (_ & _ & _ & ops & written & body & Hseg & Hjobs & _).
    exists ops, written, body. split; [done|]. rewrite Hjobs. by apply list_lookup_middle.
  - intros tr' st3 call job r Hexec' Hc Hj Hret Hacc.
    assert (reachable st3) as HI%Inv_reachable.
    { eapply reachable_exec; [|exact Hexec']. eapply reachable_exec; [exact Hreach|].
      instantiate (1 := Request f event_f :: tr ++ [Request g event_g]).
      simpl. simpl in Hexec. eapply exec_app; [exact Hexec|done]. }
    destruct (exec_keeps_call tr' (wrapped g event_g st2) st3 (length (calls st2))
                (mkCall event_g [] (Duplicate (length (jobs st))) None))
      as (call' & Hc' & Hev & Hrole); [done| |].
    { rewrite Hjoin. simpl. by apply list_lookup_middle. }
    assert (call' = call) as -> by congruence. simpl in Hev, Hrole.
    destruct (returned_duplicate _ _ _ _ _ _ HI Hc Hrole Hj Hret) as (o & Hp & Hsd).
    rewrite Hev in Hsd. rewrite settle_duplicate_accepted in Hsd by done. by simplify_eq.
Qed.

Lemma shared_registry_witness :
  let event := event_with "abc123" accept_all in
  let st2 := run [Request signin event; HandlerResumes 0 []] in
  (∃ ops written body,
     run_segment accept_all (signin event) [] [] = (ops, written, body)
     ∧ jobs (wrapped signin event init) !! 0 = Some (mkJob "abc123" 0 ops body None))
  ∧ wrapped reject_all event st2 =
      mkState (running st2) (jobs st2)
        (calls st2 ++ [mkCall event [] (Duplicate 0) None]) (invocations st2)
  ∧ (∀ tr' st3 call job r,
       exec tr' (wrapped reject_all event st2) = Some st3 →
       calls st3 !! length (calls st2) = Some call →
       jobs st3 !! 0 = Some job →
       returned call = Some r →
       accepts event (ops job) →
       promise job = Some r ∧ response_cookies call = ops job).
Proof.
  apply (shared_registry init signin reject_all (event_with "abc123" accept_all)
           (event_with "abc123" accept_all) "abc123" [HandlerResumes 0 []]
           (run [Request signin (event_with "abc123" accept_all); HandlerResumes 0 []])).
  - apply reachable_init.
  - reflexivity.
  - reflexivity.
  - reflexivity.
  - vm_compute. reflexivity.
  - reflexivity.
Defined.

(** C10.  The code departs from the claim at this input.  The job is
    started by the action wrapping a handler that catches the exception
    of a rejected write and returns a value; a call of the action
    wrapping [reject_all] with the same token joins it, and [reject_all]
    is never invoked (one invocation, one job), as the claim says.  But
    the replay on the joining call's event raises, so that call is
    rejected with the exception of the write and does not return the
    outcome of the first handler. *)
Lemma shared_registry_counterexample :
  let st := run (rejected_write (tolerant (Return (Plain [("ok", "1")]))) reject_all) in
  invocations st = ["abc123"]
  ∧ length (jobs st) = 1
  ∧ role (calls st !!! 1) = Duplicate 0
  ∧ promise (jobs st !!! 0) = Some (Fulfilled (Plain [("ok", "1")]))
  ∧ outcome st (calls st !!! 1) = Some (Rejected (Exception "Cookie is too large")).
Proof. vm_compute. done. Qed.

(** ** The scenarios of the spec *)

(** Token ["abc123"], three concurrent calls, a handler that redirects to
    ["/"] after a delay: all three calls end with that redirect, the
    registry has no entry left, the handler ran once. *)
Example three_calls_scenario :
  let st := run three_calls in
  outcome st <$> calls st = [Some (Rejected (Redirect 303%Z "/"));
                             Some (Rejected (Redirect 303%Z "/"));
                             Some (Rejected (Redirect 303%Z "/"))]
  ∧ response_cookies <$> calls st = [[session_op; flash_op]; [session_op; flash_op];
                                     [session_op; flash_op]]
  ∧ running st !! "abc123" = None
  ∧ invocations st = ["abc123"].
Proof. vm_compute. done. Qed.

(** No cookie, one call: the failure, and no handler invocation. *)
Example no_cookie_scenario :
  let st := run [Request signin (event_without accept_all)] in
  outcome st <$> calls st
  = [Some (Fulfilled (ActionFailure 400%Z [("message", "Form token missing")]))]
  ∧ invocations st = [] ∧ jobs st = [].
Proof. vm_compute. done. Qed.

(** ** Issuing the token *)

Lemma obj_get_set_eq data key value : obj_get (obj_set data key value) key = Some value.
Proof.
  induction data as [|[k v] rest IH]; simpl.
  - by rewrite decide_True.
  - destruct (decide (k = key)) as [->|Hne]; simpl; [by rewrite decide_True|].
    by rewrite decide_False.
Qed.

Lemma obj_get_set_ne data key value key' :
  key' ≠ key → obj_get (obj_set data key value) key' = obj_get data key'.
Proof.
  intros Hne. induction data as [|[k v] rest IH]; simpl.
  - by rewrite decide_False.
  - destruct (decide (k = key)) as [->|Hk]; simpl.
    + by rewrite !decide_False.
    + destruct (decide (k = key')); [done|apply IH].
Qed.

Lemma obj_set_length data key value :
  length (obj_set data key value) =
  match obj_get data key with
  | Some _ => length data
  | None => S (length data)
  end.
Proof.
  induction data as [|[k v] rest IH]; simpl; [done|].
  destruct (decide (k = key)); simpl; [done|]. rewrite IH. by destruct (obj_get rest key).
Qed.

(** X1. The token that [addFormToken] issues is one the guarded action
    accepts: when the call returns, the page data carries the token under
    [token], the cookie it wrote is scoped to the path of the page, and a
    request that brings that cookie back is keyed by this very token, so
    that the wrapped action does not answer it with the missing-token
    failure (it becomes the owner or a duplicate of the token's job).
    The token must not be the empty string, which a UUID is not. *)
Theorem issued_token_is_accepted uuid load_event data op page handler request st :
  addFormToken uuid load_event data = inr (op, page) →
  uuid ≠ "" →
  cookies_get request op.1.1 = Some op.1.2 →
  obj_get page "token" = Some uuid
  ∧ path op.2 = pathname load_event
  ∧ token_of request = Some uuid
  ∧ ∃ call, calls (wrapped handler request st) !! length (calls st) = Some call
      ∧ role call ≠ NoToken ∧ returned call = None.
Proof.
  unfold addFormToken. intros Hadd Hne Hget.
  destruct (load_cookies_set load_event _); [done|]. injection Hadd as <- <-.
  simpl in Hget. assert (token_of request = Some uuid) as Htok.
  { unfold token_of. rewrite Hget. by rewrite decide_False. }
  split_and!; [apply obj_get_set_eq|done|done|].
  destruct (running st !! uuid) as [j|] eqn:Hrun.
  - rewrite (wrapped_duplicate _ _ _ uuid j) by done. simpl.
    eexists. split; [by apply list_lookup_middle|done].
  - rewrite (wrapped_owner _ _ _ uuid) by done.
    destruct (run_segment _ _ _ _) as [[ops' written'] body']. simpl.
    eexists. split; [by apply list_lookup_middle|done].
Qed.

Lemma issued_token_is_accepted_witness :
  obj_get [("token", uuid1)] "token" = Some uuid1
  ∧ path (COOKIE, uuid1, mkCookieOpts "/login" (Some true) (Some 600%Z)).2 = pathname login_page
  ∧ token_of (event_with uuid1 accept_all) = Some uuid1
  ∧ ∃ call, calls (wrapped login (event_with uuid1 accept_all) init) !! length (calls init)
            = Some call
      ∧ role call ≠ NoToken ∧ returned call = None.
Proof.
  apply (issued_token_is_accepted uuid1 login_page None
           (COOKIE, uuid1, mkCookieOpts "/login" (Some true) (Some 600%Z))
           [("token", uuid1)] login (event_with uuid1 accept_all) init).
  - reflexivity.
  - discriminate.
  - reflexivity.
Defined.

(** X2. The page data [addFormToken] returns is its [data] argument (or
    the empty object) with the property [token] set to the new token: a
    [token] already in [data] is overwritten, every other property reads
    as before, and the object grows by one property exactly when [data]
    had no [token]. *)
Theorem page_data_is_data_with_token uuid event data op page :
  addFormToken uuid event data = inr (op, page) →
  (∀ key, obj_get page key =
          if decide (key = "token") then Some uuid else obj_get (default [] data) key)
  ∧ length page =
    match obj_get (default [] data) "token" with
    | Some _ => length (default [] data)
    | None => S (length (default [] data))
    end.
Proof.
  unfold addFormToken. intros Hadd.
  destruct (load_cookies_set event _); [done|]. injection Hadd as <- <-. split.
  - intros key. destruct (decide (key = "token")) as [->|Hne].
    + apply obj_get_set_eq.
    + by apply obj_get_set_ne.
  - apply obj_set_length.
Qed.

Lemma page_data_is_data_with_token_witness :
  (∀ key, obj_get [("next", "/home"); ("token", uuid1); ("theme", "dark")] key =
          if decide (key = "token") then Some uuid1
          else obj_get (default [] (Some [("next", "/home"); ("token", "stale"); ("theme", "dark")]))
                 key)
  ∧ length [("next", "/home"); ("token", uuid1); ("theme", "dark")] =
    match obj_get (default [] (Some [("next", "/home"); ("token", "stale"); ("theme", "dark")]))
            "token" with
    | Some _ => length (default [] (Some [("next", "/home"); ("token", "stale"); ("theme", "dark")]))
    | None => S (length (default [] (Some [("next", "/home"); ("token", "stale"); ("theme", "dark")])))
    end.
Proof.
  apply (page_data_is_data_with_token uuid1 login_page
           (Some [("next", "/home"); ("token", "stale"); ("theme", "dark")])
           (COOKIE, uuid1, mkCookieOpts "/login" (Some true) (Some 600%Z))).
  reflexivity.
Defined.

(** ** The login action *)

Lemma login_errors_cases user password :
  login_errors user password =
  (if decide (user = "") then [("user", "Username is required")] else [])
  ++ (if decide (password = "") then [("password", "Password is required")] else [])
  ++ (if decide (user ≠ "" ∧ password ≠ "" ∧ ¬ (user = "admin" ∧ password = "password"))
      then [("db", "Wrong username or password")] else []).
Proof.
  unfold login_errors.
  destruct (decide (user = "")) as [->|Hu], (decide (password = "")) as [->|Hp];
    simpl; try done.
  - rewrite decide_False by tauto. done.
  - destruct (decide (user ≠ "admin" ∨ password ≠ "password")) as [Hw|Hok].
    + rewrite decide_True; [done|]. split_and!; [done..|]. intros [-> ->]. tauto.
    + rewrite decide_False; [done|]. intros (_ & _ & Hw). apply Hw.
      destruct (decide (user = "admin")), (decide (password = "password")); tauto.
Qed.

(** X3. The login action sets no cookie and suspends twice (for the form
    and for the timer); then it throws the redirect [303] to ["/"]
    exactly when the form's [user] is ["admin"] and its [password] is
    ["password"], a missing field reading as empty.  In every other case
    it returns [fail(400, ...)] with the two fields echoed and a
    non-empty [errors]: [user] and [password] are reported exactly when
    the field is empty, and the credential error [db] exactly when both
    fields are filled in and wrong, so never beside a field error. *)
Theorem login_decision event set ops written formData x :
  let user := default "" (obj_get formData "user") in
  let password := default "" (obj_get formData "password") in
  let errors := login_errors user password in
  (∃ k1 k2,
     run_segment set (login event) ops written = (ops, written, Suspended k1)
     ∧ run_segment set (k1 formData) ops written = (ops, written, Suspended k2)
     ∧ run_segment set (k2 x) ops written =
       (ops, written,
        Finished (if decide (user = "admin" ∧ password = "password")
                  then Rejected (Redirect 303%Z "/")
                  else Fulfilled (ActionFailure 400%Z
                         ([("data.user", user); ("data.password", password)]
                          ++ ((λ kv, ("errors." +:+ kv.1, kv.2)) <$> errors))))))
  ∧ (errors = [] ↔ user = "admin" ∧ password = "password")
  ∧ obj_get errors "user"
    = (if decide (user = "") then Some "Username is required" else None)
  ∧ obj_get errors "password"
    = (if decide (password = "") then Some "Password is required" else None)
  ∧ obj_get errors "db"
    = (if decide (user ≠ "" ∧ password ≠ "" ∧ ¬ (user = "admin" ∧ password = "password"))
       then Some "Wrong username or password" else None).
Proof.
  intros user password errors.
  assert (errors = [] ↔ user = "admin" ∧ password = "password") as Hempty.
  { unfold errors. rewrite login_errors_cases.
    destruct (decide (user = "")) as [Hu|Hu], (decide (password = "")) as [Hp|Hp];
      simpl; try (split; [done|]; intros [? ?]; congruence).
    destruct (decide (_ ∧ _ ∧ _)) as [(_ & _ & Hw)|Hok]; simpl.
    - split; [done|tauto].
    - split; [intros _|done].
      destruct (decide (user = "admin")), (decide (password = "password")); tauto. }
  split_and!.
  - eexists _, _. split_and!; [reflexivity..|]. simpl.
    fold user password errors.
    destruct (decide (user = "admin" ∧ password = "password")) as [Hok|Hw].
    + apply Hempty in Hok. rewrite decide_False; [done|].
      intros Hlen. apply Hlen. by rewrite Hok.
    + rewrite decide_True; [done|].
      intros Hlen. by apply Hw, Hempty, nil_length_inv.
  - done.
  - unfold errors. rewrite login_errors_cases.
    destruct (decide (user = "")), (decide (password = "")), (decide (_ ∧ _ ∧ _)); done.
  - unfold errors. rewrite login_errors_cases.
    destruct (decide (user = "")), (decide (password = "")), (decide (_ ∧ _ ∧ _)); done.
  - unfold errors. rewrite login_errors_cases.
    destruct (decide (user = "")), (decide (password = "")), (decide (_ ∧ _ ∧ _)); done.
Qed.

(** ** The life of a job *)

(** What one step does to a job: nothing, one more segment of its
    handler, or its settlement. *)
Lemma step_job s st st' j job :
  step s st = Some st' → jobs st !! j = Some job →
  jobs st' !! j = Some job
  ∨ (∃ x k owner ops' written' body',
       s = HandlerResumes j x ∧ body job = Suspended k
       ∧ calls st !! job_owner job = Some owner
       ∧ run_segment (cookies_set (call_event owner)) (k x) (ops job)
           (response_cookies owner) = (ops', written', body')
       ∧ jobs st' !! j =
         Some (mkJob (job_token job) (job_owner job) ops' body' (promise job)))
  ∨ (∃ o, s = JobSettles j ∧ body job = Finished o ∧ promise job = None
       ∧ jobs st' !! j =
         Some (mkJob (job_token job) (job_owner job) (ops job) (body job) (Some o))).
Proof.
  intros Hstep Hj. pose proof (lookup_lt_Some _ _ _ Hj) as Hlj.
  destruct s as [handler event|j0 x|j0|c0]; simpl in Hstep.
  - left. injection Hstep as <-. unfold wrapped.
    destruct (cookies_get event COOKIE) as [token|]; [|done].
    destruct (decide (token = "")); [done|].
    destruct (running st !! token); [done|].
    destruct (run_segment _ _ _ _) as [[ops' written'] body']. by apply lookup_snoc_old.
  - apply resume_handler_Some in Hstep
      as (job0 & k & owner & ops' & written' & body' & Hj0 & Hb & Hown & Hseg & ->). simpl.
    destruct (decide (j0 = j)) as [->|Hne].
    + right. left. assert (job0 = job) as -> by congruence.
      exists x, k, owner, ops', written', body'.
      split_and!; [done..|]. by apply list_lookup_insert_eq.
    + left. by rewrite list_lookup_insert_ne.
  - apply settle_job_Some in Hstep as (job0 & o & Hj0 & Hb & Hp & ->). simpl.
    destruct (decide (j0 = j)) as [->|Hne].
    + right. right. assert (job0 = job) as -> by congruence.
      exists o. split_and!; [done..|]. by apply list_lookup_insert_eq.
    + left. by rewrite list_lookup_insert_ne.
  - left. by apply resume_duplicate_Some in Hstep
      as (call0 & j0 & existing & o & written & r & _ & _ & _ & _ & _ & _ & ->).
Qed.

Lemma step_job_grows s st st' j job :
  step s st = Some st' → jobs st !! j = Some job →
  ∃ job', jobs st' !! j = Some job'
    ∧ job_token job' = job_token job ∧ job_owner job' = job_owner job
    ∧ (∃ more, ops job' = ops job ++ more)
    ∧ (∀ o, body job = Finished o → ops job' = ops job ∧ body job' = Finished o)
    ∧ (∀ o, promise job = Some o → promise job' = Some o).
Proof.
  intros Hstep Hj.
  destruct (step_job _ _ _ _ _ Hstep Hj)
    as [Hsame|[(x & k & owner & ops' & written' & body' & _ & Hb & _ & Hseg & Hj')
              |(o & _ & Hb & Hp & Hj')]].
  - exists job. split_and!; [done..| | |done].
    + exists []. by rewrite app_nil_r.
    + done.
  - eexists. split; [exact Hj'|]. simpl.
    apply run_segment_appends in Hseg as (new & -> & _).
    split_and!; [done..|by exists new| |done]. intros o Ho. congruence.
  - eexists. split; [exact Hj'|]. simpl.
    split_and!; [done..| | |congruence].
    + exists []. by rewrite app_nil_r.
    + done.
Qed.

(** X5. The recorded ops of a job are append-only and freeze when its
    handler finishes: along any run, a job keeps its token and its owner,
    its [ops] only grow at the end, and from the moment the handler has
    returned or thrown, [ops], the handler's outcome and (once set) the
    settled promise stay what they are.  So duplicates that resume at
    different times replay the same ops. *)
Theorem ops_append_only tr st st' j job :
  exec tr st = Some st' →
  jobs st !! j = Some job →
  ∃ job', jobs st' !! j = Some job'
    ∧ job_token job' = job_token job ∧ job_owner job' = job_owner job
    ∧ (∃ more, ops job' = ops job ++ more)
    ∧ (∀ o, body job = Finished o → ops job' = ops job ∧ body job' = Finished o)
    ∧ (∀ o, promise job = Some o → promise job' = Some o).
Proof.
  revert st job. induction tr as [|s tr IH]; simpl; intros st job Hexec Hj.
  - simplify_eq. exists job. split_and!; [done..| | |done].
    + exists []. by rewrite app_nil_r.
    + done.
  - destruct (step s st) as [st1|] eqn:Hstep; simpl in Hexec; [|done].
    destruct (step_job_grows _ _ _ _ _ Hstep Hj)
      as (job1 & Hj1 & Ht1 & Ho1 & (more1 & Hm1) & Hf1 & Hp1).
    destruct (IH _ _ Hexec Hj1) as (job' & Hj' & Ht' & Ho' & (more' & Hm') & Hf' & Hp').
    exists job'. split_and!; [done|congruence|congruence| | |].
    + exists (more1 ++ more'). by rewrite Hm', Hm1, app_assoc.
    + intros o Ho. destruct (Hf1 _ Ho) as [Hops1 Hb1]. destruct (Hf' _ Hb1) as [Hops' Hb'].
      split; congruence.
    + intros o Ho. by apply Hp', Hp1.
Qed.

Lemma ops_append_only_witness :
  let st := run [Request (tolerant (Return (Plain []))) (event_with "abc123" accept_all)] in
  let st' := run [Request (tolerant (Return (Plain []))) (event_with "abc123" accept_all);
                  Request signin (event_with "abc123" accept_all);
                  HandlerResumes 0 []; JobSettles 0; DuplicateResumes 1] in
  ∃ job', jobs st' !! 0 = Some job'
    ∧ job_token job' = job_token (jobs st !!! 0) ∧ job_owner job' = job_owner (jobs st !!! 0)
    ∧ (∃ more, ops job' = ops (jobs st !!! 0) ++ more)
    ∧ (∀ o, body (jobs st !!! 0) = Finished o →
         ops job' = ops (jobs st !!! 0) ∧ body job' = Finished o)
    ∧ (∀ o, promise (jobs st !!! 0) = Some o → promise job' = Some o).
Proof.
  apply (ops_append_only
           [Request signin (event_with "abc123" accept_all);
            HandlerResumes 0 []; JobSettles 0; DuplicateResumes 1]
           (run [Request (tolerant (Return (Plain []))) (event_with "abc123" accept_all)])).
  - vm_compute. reflexivity.
  - vm_compute. reflexivity.
Defined.

(** ** Handlers that set no cookie *)

Lemma run_segment_quiet set p ops written :
  sets_no_cookie p →
  ∃ body', run_segment set p ops written = (ops, written, body')
    ∧ match body' with
      | Suspended k => ∀ x, sets_no_cookie (k x)
      | Finished _ => True
      end.
Proof. destruct p; simpl; intros Hp; [by eexists..|done|by eexists]. Qed.

Lemma step_keeps_quiet s st st' j job :
  step s st = Some st' → jobs st !! j = Some job → quiet job →
  ∃ job', jobs st' !! j = Some job' ∧ quiet job'.
Proof.
  intros Hstep Hj [Hops Hbody].
  destruct (step_job _ _ _ _ _ Hstep Hj)
    as [Hsame|[(x & k & owner & ops' & written' & body' & _ & Hb & _ & Hseg & Hj')
              |(o & _ & Hb & Hp & Hj')]].
  - by exists job.
  - eexists. split; [exact Hj'|]. rewrite Hb in Hbody.
    destruct (run_segment_quiet (cookies_set (call_event owner)) (k x) (ops job)
                (response_cookies owner) (Hbody x)) as (body'' & Hseg' & Hq).
    rewrite Hseg' in Hseg. simplify_eq. by split.
  - eexists. split; [exact Hj'|]. split; [done|]. simpl. by rewrite Hb.
Qed.

Lemma exec_keeps_quiet tr : ∀ st st' j job,
  exec tr st = Some st' → jobs st !! j = Some job → quiet job →
  ∃ job', jobs st' !! j = Some job' ∧ quiet job'.
Proof.
  induction tr as [|s tr IH]; simpl; intros st st' j job Hexec Hj Hq.
  - simplify_eq. by exists job.
  - destruct (step s st) as [st1|] eqn:Hstep; simpl in Hexec; [|done].
    destruct (step_keeps_quiet _ _ _ _ _ Hstep Hj Hq) as (job1 & Hj1 & Hq1). by eapply IH.
Qed.

Lemma login_sets_no_cookie event : sets_no_cookie (login event).
Proof. simpl. intros formData x. by destruct (decide _). Qed.

(** X4. For a handler that never calls [cookies.set], deduplication is
    exact, whatever the [cookies.set] of the callers' events would do:
    the job it starts records no op at any time, no call that shares the
    job (owner or duplicate) gets a cookie written to its response, and
    every such call that has settled got the outcome of the job's
    promise.  The login action is such a handler. *)
Theorem cookie_free_handler_dedups_exactly st handler event token tr st' job :
  reachable st →
  token_of event = Some token → running st !! token = None →
  sets_no_cookie (handler event) →
  exec (Request handler event :: tr) st = Some st' →
  jobs st' !! length (jobs st) = Some job →
  ops job = []
  ∧ ∀ c call, calls st' !! c = Some call → shares call (length (jobs st)) →
      response_cookies call = []
      ∧ (outcome st' call ≠ None → outcome st' call = promise job).
Proof.
  intros Hreach Htok Hrun Hfree Hexec Hj.
  assert (reachable st') as HI%Inv_reachable by by eapply reachable_exec.
  simpl in Hexec.
  destruct (owner_call handler event st token Htok Hrun)
    as (_ & _ & _ & ops0 & written0 & body0 & Hseg & Hjobs & _).
  destruct (run_segment_quiet (cookies_set event) (handler event) [] [] Hfree)
    as (body1 & Hseg1 & Hq1).
  rewrite Hseg1 in Hseg. injection Hseg as <- <- <-.
  destruct (exec_keeps_quiet tr (wrapped handler event st) st' (length (jobs st))
              (mkJob token (length (calls st)) [] body1 None)) as (job' & Hj' & Hops & _).
  { done. } { rewrite Hjobs. by apply list_lookup_middle. } { by split. }
  assert (job' = job) as -> by congruence. split; [done|].
  intros c call Hc Hshare. split.
  - destruct Hshare as [Hr|Hr].
    + destruct (inv_owned _ HI _ _ _ Hc Hr) as (job0 & Hj0 & Hown).
      assert (job0 = job) as -> by congruence.
      destruct (inv_owner _ HI _ _ Hj) as (owner & Hc0 & _ & _ & Hresp & _).
      rewrite Hown in Hc0. assert (owner = call) as -> by congruence.
      by rewrite Hresp, Hops.
    + destruct (inv_duplicate _ HI _ _ _ Hc Hr) as (job0 & Hj0 & _ & Hm).
      assert (job0 = job) as -> by congruence.
      destruct (returned call) as [r|]; [|done].
      destruct Hm as (o & _ & Hsd). rewrite Hops in Hsd.
      rewrite settle_duplicate_accepted in Hsd by constructor. by simplify_eq.
  - apply (shared_outcome st' (length (jobs st)) job c call); [done..|].
    intros _. unfold accepts. rewrite Hops. constructor.
Qed.

Lemma cookie_free_handler_dedups_exactly_witness :
  let st' := run (double_submit bad_form) in
  ops (jobs st' !!! 0) = []
  ∧ ∀ c call, calls st' !! c = Some call → shares call (length (jobs init)) →
      response_cookies call = []
      ∧ (outcome st' call ≠ None → outcome st' call = promise (jobs st' !!! 0)).
Proof.
  apply (cookie_free_handler_dedups_exactly init login (event_with uuid1 size_limited) uuid1
           [HandlerResumes 0 bad_form; Request login (event_with uuid1 size_limited);
            HandlerResumes 0 []; JobSettles 0; DuplicateResumes 1]).
  - apply reachable_init.
  - reflexivity.
  - reflexivity.
  - apply login_sets_no_cookie.
  - vm_compute. reflexivity.
  - vm_compute. reflexivity.
Defined.

(** ** Settled calls *)

Lemma step_keeps_settled s st st' c call o :
  Inv st → step s st = Some st' →
  calls st !! c = Some call → outcome st call = Some o →
  ∃ call', calls st' !! c = Some call' ∧ outcome st' call' = Some o
    ∧ response_cookies call' = response_cookies call.
Proof.
  intros HI Hstep Hc Hout.
  assert (∀ j, role call = Owner j →
            ∃ job, jobs st !! j = Some job ∧ promise job = Some o ∧ job_owner job = c)
    as Howner.
  { intros j Hr. unfold outcome in Hout. rewrite Hr in Hout.
    destruct (inv_owned _ HI _ _ _ Hc Hr) as (job & Hj & Hown).
    rewrite Hj in Hout. by exists job. }
  destruct s as [handler event|j0 x|j0|c0]; simpl in Hstep.
  - injection Hstep as <-. exists call.
    assert (calls (wrapped handler event st) !! c = Some call
            ∧ ∀ j job, jobs st !! j = Some job →
                jobs (wrapped handler event st) !! j = Some job) as [Hc' Hjobs].
    { unfold wrapped. destruct (cookies_get event COOKIE) as [token|];
        [|by split; [apply lookup_snoc_old|]].
      destruct (decide (token = "")); [by split; [apply lookup_snoc_old|]|].
      destruct (running st !! token); [by split; [apply lookup_snoc_old|]|].
      destruct (run_segment _ _ _ _) as [[ops' written'] body'].
      split; [by apply lookup_snoc_old|]. intros j job Hj. by apply lookup_snoc_old. }
    split_and!; [done| |done]. unfold outcome in *.
    destruct (role call) as [|j|j] eqn:Hr; [done| |done].
    destruct (Howner j eq_refl) as (job & Hj & Hp & _). by rewrite (Hjobs _ _ Hj).
  - apply resume_handler_Some in Hstep
      as (job0 & k & owner & ops' & written' & body' & Hj0 & Hb & Hown & Hseg & ->).
    assert (promise job0 = None) as Hp0.
    { destruct (promise job0) as [o0|] eqn:Hp; [|done].
      apply (inv_promise _ HI _ _ _ Hj0) in Hp. congruence. }
    destruct (inv_owner _ HI _ _ Hj0) as (owner' & Hown' & Hrole & _).
    assert (owner' = owner) as -> by congruence.
    assert (job_owner job0 ≠ c) as Hne.
    { intros Heq. rewrite Heq in Hown. assert (owner = call) as -> by congruence.
      destruct (Howner _ Hrole) as (job & Hj & Hp & _). congruence. }
    exists call. simpl. split_and!; [by rewrite list_lookup_insert_ne| |done].
    unfold outcome in *. simpl. destruct (role call) as [|j|j] eqn:Hr; [done| |done].
    destruct (Howner j eq_refl) as (job & Hj & Hp & _).
    rewrite list_lookup_insert_ne; [by rewrite Hj|]. intros ->. congruence.
  - apply settle_job_Some in Hstep as (job0 & o0 & Hj0 & Hb & Hp0 & ->).
    exists call. simpl. split_and!; [done| |done].
    unfold outcome in *. simpl. destruct (role call) as [|j|j] eqn:Hr; [done| |done].
    destruct (Howner j eq_refl) as (job & Hj & Hp & _).
    rewrite list_lookup_insert_ne; [by rewrite Hj|]. intros ->. congruence.
  - apply resume_duplicate_Some in Hstep
      as (call0 & j & existing & o0 & written & r & Hc0 & Hrole & Hret & Hj & Hpo & Hsd & ->).
    assert (c0 ≠ c) as Hne.
    { intros ->. assert (call0 = call) as -> by congruence.
      unfold outcome in Hout. rewrite Hrole in Hout. congruence. }
    exists call. simpl. by rewrite list_lookup_insert_ne.
Qed.

(** X6. A settled call is final: once a call has its outcome (the
    missing-token failure, the job's settled promise for an owner, what
    it returned or threw for a duplicate), no later step changes that
    outcome or writes another cookie to its response. *)
Theorem settled_call_is_final tr st st' c call o :
  reachable st →
  exec tr st = Some st' →
  calls st !! c = Some call →
  outcome st call = Some o →
  ∃ call', calls st' !! c = Some call' ∧ outcome st' call' = Some o
    ∧ response_cookies call' = response_cookies call.
Proof.
  intros HI%Inv_reachable. revert st call HI.
  induction tr as [|s tr IH]; simpl; intros st call HI Hexec Hc Hout.
  - simplify_eq. by exists call.
  - destruct (step s st) as [st1|] eqn:Hstep; simpl in Hexec; [|done].
    destruct (step_keeps_settled _ _ _ _ _ _ HI Hstep Hc Hout) as (call1 & Hc1 & Ho1 & Hr1).
    destruct (IH st1 call1) as (call' & Hc' & Ho' & Hr'); [by eapply Inv_step|done..|].
    exists call'. split_and!; [done..|congruence].
Qed.

Lemma settled_call_is_final_witness :
  let st := run [Request reject_all (event_with "abc123" accept_all);
                 Request signin (event_with "abc123" accept_all);
                 JobSettles 0; DuplicateResumes 1] in
  let st' := run [Request reject_all (event_with "abc123" accept_all);
                  Request signin (event_with "abc123" accept_all);
                  JobSettles 0; DuplicateResumes 1;
                  Request signin (event_with "abc123" accept_all);
                  HandlerResumes 1 []; JobSettles 1] in
  ∃ call', calls st' !! 1 = Some call'
    ∧ outcome st' call' = Some (Fulfilled (ActionFailure 400%Z [("errors", "Username is required")]))
    ∧ response_cookies call' = response_cookies (calls st !!! 1).
Proof.
  apply (settled_call_is_final
           [Request signin (event_with "abc123" accept_all); HandlerResumes 1 []; JobSettles 1]
           (run [Request reject_all (event_with "abc123" accept_all);
                 Request signin (event_with "abc123" accept_all);
                 JobSettles 0; DuplicateResumes 1])).
  - apply reachable_run. vm_compute. eexists. reflexivity.
  - vm_compute. reflexivity.
  - vm_compute. reflexivity.
  - vm_compute. reflexivity.
Defined.

(** ** Calls with different tokens *)

(** X7. The guard never coalesces calls that present different tokens,
    and a call touches no entry but its own: of two calls with distinct
    tokens, neither of which has a job in flight, each invokes its
    handler and registers a job of its own, and every other token's entry
    is what it was. *)
Theorem distinct_tokens_run_independently st h1 h2 event1 event2 token1 token2 :
  token_of event1 = Some token1 → token_of event2 = Some token2 →
  token1 ≠ token2 →
  running st !! token1 = None → running st !! token2 = None →
  invocations (wrapped h2 event2 (wrapped h1 event1 st)) = invocations st ++ [token1; token2]
  ∧ running (wrapped h2 event2 (wrapped h1 event1 st)) !! token1 = Some (length (jobs st))
  ∧ running (wrapped h2 event2 (wrapped h1 event1 st)) !! token2 = Some (S (length (jobs st)))
  ∧ length (jobs (wrapped h2 event2 (wrapped h1 event1 st))) = S (S (length (jobs st)))
  ∧ ∀ token, token ≠ token1 → token ≠ token2 →
      running (wrapped h2 event2 (wrapped h1 event1 st)) !! token = running st !! token.
Proof.
  intros Ht1 Ht2 Hne Hr1 Hr2.
  rewrite (wrapped_owner h1 event1 st token1) by done.
  destruct (run_segment _ (h1 event1) _ _) as [[ops1 written1] body1].
  rewrite (wrapped_owner h2 event2 _ token2); [|done|by simpl; rewrite lookup_insert_ne].
  destruct (run_segment _ (h2 event2) _ _) as [[ops2 written2] body2]. simpl.
  rewrite !length_app. simpl. replace (length (jobs st) + 1) with (S (length (jobs st))) by lia.
  split_and!.
  - by rewrite <- app_assoc.
  - rewrite lookup_insert_ne by done. by rewrite lookup_insert_eq.
  - by rewrite lookup_insert_eq.
  - lia.
  - intros token Hn1 Hn2. by rewrite !lookup_insert_ne.
Qed.

Lemma distinct_tokens_run_independently_witness :
  let st := run [Request signin (event_with "other" accept_all)] in
  let st' := wrapped reject_all (event_with "def456" accept_all)
               (wrapped signin (event_with "abc123" accept_all) st) in
  invocations st' = invocations st ++ ["abc123"; "def456"]
  ∧ running st' !! "abc123" = Some (length (jobs st))
  ∧ running st' !! "def456" = Some (S (length (jobs st)))
  ∧ length (jobs st') = S (S (length (jobs st)))
  ∧ ∀ token, token ≠ "abc123" → token ≠ "def456" →
      running st' !! token = running st !! token.
Proof.
  apply (distinct_tokens_run_independently
           (run [Request signin (event_with "other" accept_all)])
           signin reject_all (event_with "abc123" accept_all) (event_with "def456" accept_all)
           "abc123" "def456").
  - reflexivity.
  - reflexivity.
  - discriminate.
  - vm_compute. reflexivity.
  - vm_compute. reflexivity.
Defined.

(** ** A replay that raises *)

(** X8. What a duplicate is left with when a replayed write raises.  Let
    [e] be the exception of the first recorded op on which the
    duplicate's [cookies.set] raises.  If the job was fulfilled, the
    loop in the [try] block applies the ops before that one, the [catch]
    block applies the same ops a second time, and the duplicate is
    rejected with [e]; if the job was rejected, only the [catch] block
    runs, the ops before that one are applied once, and the duplicate is
    rejected with [e] in place of the job's own exception. *)
Theorem replay_failure_shape set ops written e :
  first_raise set ops = Some e →
  (∀ result, settle_duplicate set ops written (Fulfilled result)
      = (written ++ applied_prefix set ops ++ applied_prefix set ops, Rejected e))
  ∧ (∀ err, settle_duplicate set ops written (Rejected err)
      = (written ++ applied_prefix set ops, Rejected e)).
Proof.
  intros Hraise. split; intros ?; unfold settle_duplicate;
    repeat (rewrite ?replay_spec, ?Hraise; simpl); by rewrite <- ?app_assoc.
Qed.

Lemma replay_failure_shape_witness :
  (∀ result, settle_duplicate size_limited [session_op; flash_op; session_op] [] (Fulfilled result)
      = ([] ++ applied_prefix size_limited [session_op; flash_op; session_op]
            ++ applied_prefix size_limited [session_op; flash_op; session_op],
         Rejected (Exception "Cookie is too large")))
  ∧ (∀ err, settle_duplicate size_limited [session_op; flash_op; session_op] [] (Rejected err)
      = ([] ++ applied_prefix size_limited [session_op; flash_op; session_op],
         Rejected (Exception "Cookie is too large"))).
Proof. apply (replay_failure_shape size_limited). reflexivity. Defined.

(** ** Draining *)

Lemma settle_upto n : ∀ st,
  Inv st → (∀ j job, jobs st !! j = Some job → ∃ o, body job = Finished o) →
  ∃ tr st', exec tr st = Some st' ∧ Inv st'
    ∧ (∀ j job, jobs st' !! j = Some job → ∃ o, body job = Finished o)
    ∧ calls st' = calls st ∧ invocations st' = invocations st
    ∧ (∀ j job, jobs st' !! j = Some job → j < n → promise job ≠ None).
Proof.
  induction n as [|n IH]; intros st HI Hfin.
  - exists [], st. split_and!; [done..|]. intros j job _ Hlt. lia.
  - destruct (IH st HI Hfin) as (tr & st1 & Hexec & HI1 & Hfin1 & Hc1 & Hi1 & Hdone1).
    destruct (jobs st1 !! n) as [job|] eqn:Hj.
    2:{ exists tr, st1. split_and!; [done..|]. intros j job Hj' Hlt.
        destruct (decide (j = n)) as [->|Hne]; [congruence|]. apply (Hdone1 j); [done|lia]. }
    destruct (promise job) as [o|] eqn:Hp.
    { exists tr, st1. split_and!; [done..|]. intros j job' Hj' Hlt.
      destruct (decide (j = n)) as [->|Hne]; [congruence|]. apply (Hdone1 j); [done|lia]. }
    destruct (Hfin1 _ _ Hj) as (o & Hb).
    assert (settle_job n st1 =
            Some (mkState (delete (job_token job) (running st1))
                    (<[n := mkJob (job_token job) (job_owner job) (ops job) (body job) (Some o)]>
                       (jobs st1))
                    (calls st1) (invocations st1))) as Hsettle.
    { unfold settle_job. rewrite Hj. simpl. by rewrite Hb, Hp. }
    eexists (tr ++ [JobSettles n]), _. split_and!.
    + eapply exec_app; [done|]. simpl. rewrite Hsettle. done.
    + by eapply Inv_settle_job.
    + simpl. intros j job' [(<- & <- & _)|[Hne Hj']]%list_lookup_insert_Some; simpl; eauto.
    + done.
    + done.
    + simpl. intros j job' [(<- & <- & _)|[Hne Hj']]%list_lookup_insert_Some Hlt; simpl.
      * done.
      * apply (Hdone1 j); [done|lia].
Qed.

Lemma outcome_same_jobs st st' call : jobs st' = jobs st → outcome st' call = outcome st call.
Proof. intros Heq. unfold outcome. by rewrite Heq. Qed.

Lemma resume_upto n : ∀ st,
  Inv st → (∀ j job, jobs st !! j = Some job → promise job ≠ None) →
  ∃ tr st', exec tr st = Some st' ∧ Inv st'
    ∧ jobs st' = jobs st ∧ running st' = running st ∧ invocations st' = invocations st
    ∧ length (calls st') = length (calls st)
    ∧ (∀ c call, calls st' !! c = Some call → c < n → outcome st' call ≠ None).
Proof.
  induction n as [|n IH]; intros st HI Hset.
  - exists [], st. split_and!; [done..|]. intros c call _ Hlt. lia.
  - destruct (IH st HI Hset) as (tr & st1 & Hexec & HI1 & Hj1 & Hr1 & Hi1 & Hl1 & Hdone1).
    assert (∀ call, calls st1 !! n = Some call → outcome st1 call ≠ None →
            ∃ tr st', exec tr st = Some st' ∧ Inv st'
              ∧ jobs st' = jobs st ∧ running st' = running st
              ∧ invocations st' = invocations st
              ∧ length (calls st') = length (calls st)
              ∧ (∀ c call, calls st' !! c = Some call → c < S n → outcome st' call ≠ None))
      as Hkeep.
    { intros call Hc Hout. exists tr, st1. split_and!; [done..|]. intros c call' Hc' Hlt.
      destruct (decide (c = n)) as [->|Hne]; [by simplify_eq|]. apply (Hdone1 c); [done|lia]. }
    destruct (calls st1 !! n) as [call|] eqn:Hc.
    2:{ exists tr, st1. split_and!; [done..|]. intros c call Hc' Hlt.
        destruct (decide (c = n)) as [->|Hne]; [congruence|]. apply (Hdone1 c); [done|lia]. }
    destruct (role call) as [|j|j] eqn:Hrole.
    + apply (Hkeep call); [done|]. unfold outcome. rewrite Hrole.
      destruct (inv_no_token _ HI1 _ _ Hc Hrole) as (_ & _ & ->). done.
    + apply (Hkeep call); [done|]. unfold outcome. rewrite Hrole.
      destruct (inv_owned _ HI1 _ _ _ Hc Hrole) as (job & Hj & _). rewrite Hj. simpl.
      apply (Hset j). by rewrite <- Hj1.
    + destruct (returned call) as [r|] eqn:Hret.
      { apply (Hkeep call); [done|]. unfold outcome. by rewrite Hrole, Hret. }
      destruct (inv_duplicate _ HI1 _ _ _ Hc Hrole) as (job & Hj & _).
      destruct (promise job) as [o|] eqn:Hp; [|by destruct (Hset j job); [rewrite <- Hj1|]].
      pose proof (resume_duplicate_ready n st1 call j job o Hc Hrole Hret Hj Hp) as Hres.
      eexists (tr ++ [DuplicateResumes n]), _. split_and!.
      * eapply exec_app; [done|]. simpl. rewrite Hres. done.
      * by eapply Inv_resume_duplicate.
      * done.
      * done.
      * done.
      * simpl. by rewrite length_insert.
      * simpl. intros c call' [(<- & <- & _)|[Hne Hc']]%list_lookup_insert_Some Hlt.
        -- unfold outcome. simpl. by rewrite Hrole.
        -- rewrite (outcome_same_jobs st1) by done. apply (Hdone1 c); [done|lia].
Qed.

(** X9. Nothing is left waiting and nothing leaks once the handlers are
    done: from any reachable state in which every handler has returned
    or thrown, the pending [finally] reactions and then the waiting
    duplicates can all run, no handler is invoked in doing so, and at the
    end the registry is empty and every call made so far has settled. *)
Theorem drains_when_handlers_finish st :
  reachable st →
  (∀ j job, jobs st !! j = Some job → ∃ o, body job = Finished o) →
  ∃ tr st', exec tr st = Some st'
    ∧ running st' = ∅
    ∧ invocations st' = invocations st
    ∧ length (calls st') = length (calls st)
    ∧ (∀ c call, calls st' !! c = Some call → outcome st' call ≠ None).
Proof.
  intros HI%Inv_reachable Hfin.
  destruct (settle_upto (length (jobs st)) st HI Hfin)
    as (tr1 & st1 & Hexec1 & HI1 & _ & Hc1 & Hi1 & Hdone1).
  assert (length (jobs st) ≤ length (jobs st1)) as Hlen by by eapply exec_grows.
  assert (length (jobs st1) ≤ length (jobs st)) as Hlen'.
  { rewrite <- (length_fmap job_token (jobs st1)), <- (length_fmap job_token (jobs st)).
    by rewrite <- (inv_invocations _ HI1), <- (inv_invocations _ HI), Hi1. }
  assert (∀ j job, jobs st1 !! j = Some job → promise job ≠ None) as Hset.
  { intros j job Hj. apply (Hdone1 j job Hj). apply lookup_lt_Some in Hj. lia. }
  destruct (resume_upto (length (calls st1)) st1 HI1 Hset)
    as (tr2 & st2 & Hexec2 & HI2 & Hj2 & Hr2 & Hi2 & Hl2 & Hdone2).
  exists (tr1 ++ tr2), st2. split_and!.
  - by eapply exec_app.
  - apply map_eq. intros token. rewrite lookup_empty.
    destruct (running st2 !! token) as [j|] eqn:Hrun; [|done].
    destruct (inv_entry _ HI2 _ _ Hrun) as (job & Hj & _ & Hp).
    rewrite Hj2 in Hj. by destruct (Hset j job).
  - congruence.
  - congruence.
  - intros c call Hc. apply (Hdone2 c call Hc). apply lookup_lt_Some in Hc. lia.
Qed.

Lemma drains_when_handlers_finish_witness :
  let st := run [Request signin (event_with "abc123" accept_all);
                 Request signin (event_with "abc123" accept_all);
                 Request reject_all (event_with "def456" size_limited);
                 Request (tolerant (kitRedirect "/")) (event_with "def456" size_limited);
                 HandlerResumes 0 []] in
  ∃ tr st', exec tr st = Some st'
    ∧ running st' = ∅
    ∧ invocations st' = invocations st
    ∧ length (calls st') = length (calls st)
    ∧ (∀ c call, calls st' !! c = Some call → outcome st' call ≠ None).
Proof.
  apply (drains_when_handlers_finish
           (run [Request signin (event_with "abc123" accept_all);
                 Request signin (event_with "abc123" accept_all);
                 Request reject_all (event_with "def456" size_limited);
                 Request (tolerant (kitRedirect "/")) (event_with "def456" size_limited);
                 HandlerResumes 0 []])).
  - apply reachable_run. vm_compute. eexists. reflexivity.
  - intros j job Hj. destruct j as [|[|j]]; vm_compute in Hj; simplify_eq; eauto.
Defined.

(** ** The two variants of [onceAction] *)

Lemma legacy_run_segment set p : ∀ ops written ops' written' body',
  run_segment set p ops written = (ops', written', body') →
  Legacy.run_segment set p written = (written', body').
Proof.
  induction p as [v|e|op k IH|k IH]; simpl; intros ops written ops' written' body' Hrun.
  - by simplify_eq.
  - by simplify_eq.
  - destruct (set op); by eapply IH.
  - by simplify_eq.
Qed.

Lemma forget_init : forget init = Legacy.init.
Proof. done. Qed.

Lemma forget_wrapped handler event st :
  Legacy.wrapped handler event (forget st) = forget (wrapped handler event st).
Proof.
  unfold Legacy.wrapped, wrapped, forget. simpl.
  destruct (cookies_get event COOKIE) as [token|]; simpl; [|by rewrite fmap_app].
  destruct (decide (token = "")); simpl; [by rewrite fmap_app|].
  destruct (running st !! token); simpl; [by rewrite fmap_app|].
  destruct (run_segment _ _ _ _) as [[ops' written'] body'] eqn:Hseg.
  rewrite (legacy_run_segment _ _ _ _ _ _ _ Hseg). simpl.
  by rewrite !fmap_app, !length_fmap.
Qed.

Lemma forget_resume_handler j x st :
  Inv st → Legacy.resume_handler j x (forget st) = forget <$> resume_handler j x st.
Proof.
  intros HI. unfold Legacy.resume_handler, resume_handler, forget. simpl.
  rewrite list_lookup_fmap. destruct (jobs st !! j) as [job|] eqn:Hj; simpl; [|done].
  destruct (body job) as [k|o]; [|done].
  destruct (inv_owner _ HI _ _ Hj) as (owner & Hc & Hrole & _).
  rewrite list_lookup_fmap, Hc. simpl.
  assert (forget_call owner = owner) as -> by (unfold forget_call; by rewrite Hrole).
  destruct (run_segment _ _ _ _) as [[ops' written'] body'] eqn:Hseg.
  rewrite (legacy_run_segment _ _ _ _ _ _ _ Hseg). simpl.
  rewrite !list_fmap_insert. unfold forget_call at 2. simpl. by rewrite Hrole.
Qed.

Lemma forget_settle_job j st :
  Legacy.settle_job j (forget st) = forget <$> settle_job j st.
Proof.
  unfold Legacy.settle_job, settle_job, forget. simpl.
  rewrite list_lookup_fmap. destruct (jobs st !! j) as [job|]; simpl; [|done].
  destruct (body job) as [k|o] eqn:Hb; [done|]. destruct (promise job); [done|]. simpl.
  by rewrite list_fmap_insert.
Qed.

Lemma forget_resume_duplicate c st st' :
  resume_duplicate c st = Some st' → forget st' = forget st.
Proof.
  intros (call & j & existing & o & written & r & Hc & Hrole & Hret & Hj & Hp & Hsd & ->)%resume_duplicate_Some.
  unfold forget. simpl. f_equal. rewrite list_fmap_insert. apply list_insert_id.
  rewrite list_lookup_fmap, Hc. simpl. unfold forget_call. simpl. by rewrite Hrole.
Qed.

Lemma legacy_forward tr : ∀ st st',
  Inv st → exec tr st = Some st' →
  Legacy.exec (without_resumes tr) (forget st) = Some (forget st').
Proof.
  induction tr as [|s tr IH]; simpl; intros st st' HI Hexec; [by simplify_eq|].
  destruct (step s st) as [st1|] eqn:Hstep; simpl in Hexec; [|done].
  specialize (IH st1 st' (Inv_step _ _ _ HI Hstep) Hexec). unfold without_resumes.
  destruct s as [handler event|j x|j|c]; simpl in Hstep.
  - rewrite filter_cons_True by done. simpl. injection Hstep as <-.
    by rewrite forget_wrapped.
  - rewrite filter_cons_True by done. simpl.
    by rewrite forget_resume_handler, Hstep.
  - rewrite filter_cons_True by done. simpl. by rewrite forget_settle_job, Hstep.
  - rewrite filter_cons_False by done. by rewrite <- (forget_resume_duplicate _ _ _ Hstep).
Qed.

Lemma legacy_backward tr : ∀ st lst,
  Inv st → Legacy.exec tr (forget st) = Some lst →
  ∃ st', exec tr st = Some st' ∧ lst = forget st'.
Proof.
  induction tr as [|s tr IH]; simpl; intros st lst HI Hexec.
  - simplify_eq. by exists st.
  - destruct (Legacy.step s (forget st)) as [lst1|] eqn:Hstep; simpl in Hexec; [|done].
    assert (∃ st1, step s st = Some st1 ∧ lst1 = forget st1) as (st1 & Hstep1 & ->).
    { destruct s as [handler event|j x|j|c]; simpl in Hstep |- *.
      - rewrite forget_wrapped in Hstep. simplify_eq. by eexists.
      - rewrite forget_resume_handler in Hstep by done.
        destruct (resume_handler j x st) as [st1|]; simpl in Hstep; [|done].
        simplify_eq. by exists st1.
      - rewrite forget_settle_job in Hstep.
        destruct (settle_job j st) as [st1|]; simpl in Hstep; [|done].
        simplify_eq. by exists st1.
      - done. }
    destruct (IH st1 lst (Inv_step _ _ _ HI Hstep1) Hexec) as (st' & Hexec' & ->).
    exists st'. by rewrite Hstep1.
Qed.

(** X10. The earlier variant and the present one run the same jobs.  A
    run of the present variant is, with the resumptions of duplicates
    left out, a run of the earlier one, and at its end both have the
    same registry, the same log of handler invocations, the same jobs
    with the same handler state and promise, and the same calls with the
    same events and roles; owners and calls without a token have the
    same response and result.  They differ only in what a duplicate does
    once the job has settled (and in the ops the job records for
    that). *)
Theorem variants_run_the_same_jobs tr st :
  exec tr init = Some st →
  ∃ lst, Legacy.exec (without_resumes tr) Legacy.init = Some lst
    ∧ Legacy.running lst = running st
    ∧ Legacy.invocations lst = invocations st
    ∧ Legacy.jobs lst
      = (λ job, Legacy.mkJob (job_token job) (job_owner job) (body job) (promise job))
        <$> jobs st
    ∧ length (Legacy.calls lst) = length (calls st)
    ∧ ∀ c call, calls st !! c = Some call →
        ∃ lcall, Legacy.calls lst !! c = Some lcall
          ∧ call_event lcall = call_event call ∧ role lcall = role call
          ∧ ((∀ j, role call ≠ Duplicate j) → lcall = call).
Proof.
  intros Hexec. exists (forget st). split_and!.
  - rewrite <- forget_init. apply legacy_forward; [apply Inv_init|done].
  - done.
  - done.
  - done.
  - simpl. by rewrite length_fmap.
  - intros c call Hc. exists (forget_call call). simpl.
    rewrite list_lookup_fmap, Hc. split_and!; [done|..].
    + unfold forget_call. by destruct (role call).
    + unfold forget_call. by destruct (role call) eqn:Hr.
    + intros Hnd. unfold forget_call. destruct (role call) as [|j|j] eqn:Hr; [done..|].
      by destruct (Hnd j).
Qed.

Lemma variants_run_the_same_jobs_witness :
  ∃ lst, Legacy.exec (without_resumes three_calls) Legacy.init = Some lst
    ∧ Legacy.running lst = running (run three_calls)
    ∧ Legacy.invocations lst = invocations (run three_calls)
    ∧ Legacy.jobs lst
      = (λ job, Legacy.mkJob (job_token job) (job_owner job) (body job) (promise job))
        <$> jobs (run three_calls)
    ∧ length (Legacy.calls lst) = length (calls (run three_calls))
    ∧ ∀ c call, calls (run three_calls) !! c = Some call →
        ∃ lcall, Legacy.calls lst !! c = Some lcall
          ∧ call_event lcall = call_event call ∧ role lcall = role call
          ∧ ((∀ j, role call ≠ Duplicate j) → lcall = call).
Proof. apply (variants_run_the_same_jobs three_calls). vm_compute. reflexivity. Defined.

(** X11. In the earlier variant a duplicate gets the job's outcome and no
    cookie.  In every state that variant reaches, a duplicate's call has
    an empty response, whatever the handler wrote to the owner's; the
    job it joined exists and has an owner; duplicate and owner have the
    same outcome, the job's promise, with no proviso; and while that
    promise is pending the registry still maps the job's token to it. *)
Theorem legacy_duplicate_gets_outcome_without_cookies tr lst c call j :
  Legacy.exec tr Legacy.init = Some lst →
  Legacy.calls lst !! c = Some call →
  role call = Duplicate j →
  response_cookies call = []
  ∧ ∃ job owner,
      Legacy.jobs lst !! j = Some job
      ∧ Legacy.calls lst !! Legacy.job_owner job = Some owner
      ∧ role owner = Owner j
      ∧ Legacy.outcome lst call = Legacy.promise job
      ∧ Legacy.outcome lst owner = Legacy.promise job
      ∧ (Legacy.promise job = None →
         Legacy.running lst !! Legacy.job_token job = Some j).
Proof.
  intros Hexec Hc Hrole. rewrite <- forget_init in Hexec.
  destruct (legacy_backward tr init lst Inv_init Hexec) as (st & Hexec' & ->).
  assert (Inv st) as HI by (eapply Inv_exec; [apply Inv_init|done]).
  simpl in Hc. rewrite list_lookup_fmap in Hc.
  destruct (calls st !! c) as [call0|] eqn:Hc0; simpl in Hc; [|done].
  injection Hc as <-.
  assert (role call0 = Duplicate j) as Hr0.
  { unfold forget_call in Hrole. destruct (role call0) eqn:Hr; simpl in Hrole; congruence. }
  unfold forget_call at 1. rewrite Hr0. simpl. split; [done|].
  destruct (inv_duplicate _ HI _ _ _ Hc0 Hr0) as (job & Hj & _).
  destruct (inv_owner _ HI _ _ Hj) as (owner & Hown & Hro & _).
  exists (forget_job job), owner. simpl. rewrite !list_lookup_fmap, Hj, Hown. simpl.
  assert (forget_call owner = owner) as -> by (unfold forget_call; by rewrite Hro).
  split_and!; [done..| | |].
  - unfold Legacy.outcome, forget_call. rewrite Hr0. simpl.
    by rewrite list_lookup_fmap, Hj.
  - unfold Legacy.outcome. rewrite Hro. simpl. by rewrite list_lookup_fmap, Hj.
  - intros Hp. by apply (inv_pending _ HI).
Qed.

Lemma legacy_duplicate_gets_outcome_without_cookies_witness :
  let lst := default Legacy.init (Legacy.exec (without_resumes three_calls) Legacy.init) in
  response_cookies (Legacy.calls lst !!! 1) = []
  ∧ ∃ job owner,
      Legacy.jobs lst !! 0 = Some job
      ∧ Legacy.calls lst !! Legacy.job_owner job = Some owner
      ∧ role owner = Owner 0
      ∧ Legacy.outcome lst (Legacy.calls lst !!! 1) = Legacy.promise job
      ∧ Legacy.outcome lst owner = Legacy.promise job
      ∧ (Legacy.promise job = None →
         Legacy.running lst !! Legacy.job_token job = Some 0).
Proof.
  apply (legacy_duplicate_gets_outcome_without_cookies (without_resumes three_calls)
           (default Legacy.init (Legacy.exec (without_resumes three_calls) Legacy.init)) 1).
  - vm_compute. reflexivity.
  - vm_compute. reflexivity.
  - vm_compute. reflexivity.
Defined.

(** In the earlier variant the owner of [three_calls] has both cookies and
    the duplicates have none; all three are redirected. *)
Example legacy_three_calls_scenario :
  let lst := default Legacy.init (Legacy.exec (without_resumes three_calls) Legacy.init) in
  response_cookies <$> Legacy.calls lst = [[session_op; flash_op]; []; []]
  ∧ Legacy.outcome lst <$> Legacy.calls lst
    = [Some (Rejected (Redirect 303%Z "/")); Some (Rejected (Redirect 303%Z "/"));
       Some (Rejected (Redirect 303%Z "/"))]
  ∧ Legacy.invocations lst = ["abc123"].
Proof. vm_compute. done. Qed.

(** ** The recorded ops are the writes the handler issued *)

(** A segment appends to [ops] the writes the handler issues up to its
    next [await], and leaves the handler where [handler_run] goes on. *)
Lemma run_segment_issues set p : ∀ ops written ops' written' body',
  run_segment set p ops written = (ops', written', body') →
  ∃ new, ops' = ops ++ new ∧
    ∀ rest, handler_run set p rest
            = (new ++ (resume_run set body' rest).1, (resume_run set body' rest).2).
Proof.
  induction p as [v|e|op k IH|k IH]; simpl; intros ops written ops' written' body' Hrun.
  - exists []. simplify_eq. by rewrite app_nil_r.
  - exists []. simplify_eq. by rewrite app_nil_r.
  - destruct (set op) as [e|] eqn:Hset.
    + apply IH in Hrun as (new & -> & Hrest). exists (op :: new).
      split; [by rewrite <- app_assoc|]. intros rest. by rewrite Hrest.
    + apply IH in Hrun as (new & -> & Hrest). exists (op :: new).
      split; [by rewrite <- app_assoc|]. intros rest. by rewrite Hrest.
  - exists []. simplify_eq. split; [by rewrite app_nil_r|].
    intros [|x rest]; simpl; [done|]. by destruct (handler_run set (k x) rest).
Qed.

Lemma resume_run_nil set b : resume_run set b [] = ([], b).
Proof. by destruct b. Qed.

(** Along a run, a job's [ops] grow by what its handler issues when it
    is resumed with the values of the trace. *)
Lemma exec_job_issues tr : ∀ st st' j job owner,
  exec tr st = Some st' → jobs st !! j = Some job →
  calls st !! job_owner job = Some owner →
  ∃ job', jobs st' !! j = Some job' ∧ job_owner job' = job_owner job
    ∧ ops job' = ops job ++
        (resume_run (cookies_set (call_event owner)) (body job) (inputs_of j tr)).1
    ∧ body job' =
        (resume_run (cookies_set (call_event owner)) (body job) (inputs_of j tr)).2.
Proof.
  induction tr as [|s tr IH]; intros st st' j job owner Hexec Hj Hown.
  - simpl in *. simplify_eq. exists job. rewrite resume_run_nil. simpl.
    by rewrite app_nil_r.
  - simpl in Hexec. destruct (step s st) as [st1|] eqn:Hstep; simpl in Hexec; [|done].
    destruct (step_keeps_call _ _ _ _ _ Hstep Hown) as (owner1 & Hown1 & Hev1 & _).
    assert ((∃ x, s = HandlerResumes j x)
            ∨ (inputs_of j (s :: tr) = inputs_of j tr ∧ ∀ x, s ≠ HandlerResumes j x))
      as [[x ->]|[-> Hne]].
    { destruct s as [| j0 x | |]; simpl; try by right.
      destruct (decide (j0 = j)) as [->|]; [left; by exists x|right].
      split; [done|]. congruence. }
    + simpl in Hstep. apply resume_handler_Some in Hstep
        as (job0 & k & owner0 & ops' & written' & body' & Hj0 & Hb & Hown0 & Hseg & ->).
      assert (job0 = job) as -> by congruence.
      assert (owner0 = owner) as -> by congruence.
      assert (jobs (mkState (running st)
                (<[j := mkJob (job_token job) (job_owner job) ops' body' (promise job)]>
                   (jobs st))
                (<[job_owner job :=
                     mkCall (call_event owner) written' (role owner) (returned owner)]>
                   (calls st))
                (invocations st)) !! j
              = Some (mkJob (job_token job) (job_owner job) ops' body' (promise job)))
        as Hj1 by (simpl; apply list_lookup_insert_eq; by eapply lookup_lt_Some).
      simpl. rewrite decide_True by done. rewrite Hb. simpl.
      apply run_segment_issues in Hseg as (new & -> & Hrest).
      destruct (IH _ _ _ _ _ Hexec Hj1 Hown1) as (job' & Hj' & Ho' & Hops' & Hb').
      simpl in *. rewrite Hev1 in Hops', Hb'. exists job'. rewrite Hrest. simpl.
      split_and!; [done..| |done]. by rewrite Hops', app_assoc.
    + destruct (step_job _ _ _ _ _ Hstep Hj)
        as [Hsame|[(x & k & owner0 & ops' & written' & body' & -> & _)
                  |(o & -> & Hb & Hp & Hj1)]].
      * destruct (IH _ _ _ _ _ Hexec Hsame Hown1) as (job' & Hj' & Ho' & Hops' & Hb').
        exists job'. rewrite Hev1 in Hops', Hb'. done.
      * by destruct (Hne x).
      * destruct (IH _ _ _ _ _ Hexec Hj1 Hown1) as (job' & Hj' & Ho' & Hops' & Hb').
        simpl in *. rewrite Hev1 in Hops', Hb'. by exists job'.
Qed.

(** C4, amended.  Let a call present a token that has no job in flight,
    and let any steps follow.  The job this call starts has recorded, in
    order of issue, every write its handler issued through
    [event.cookies.set], whatever the original [cookies.set] made of it:
    [ops] is the list of the writes the handler body issues when its
    awaits are answered as in the trace.  Each write was forwarded at
    once to the owner's own context, so the owner's response holds those
    of the issued writes that its [cookies.set] applied.  A duplicate
    caller owns no job, so no handler runs for it; its response holds no
    write while it waits, and once it has returned, if its own
    [cookies.set] raises on none of the issued writes, its response
    holds all of them, in order of issue. *)
Theorem side_effect_replay st handler event token tr st' :
  reachable st →
  token_of event = Some token →
  running st !! token = None →
  exec (Request handler event :: tr) st = Some st' →
  let j := length (jobs st) in
  let issued := (handler_run (cookies_set event) (handler event) (inputs_of j tr)).1 in
  (∃ job, jobs st' !! j = Some job ∧ ops job = issued)
  ∧ (∃ owner, calls st' !! length (calls st) = Some owner ∧ role owner = Owner j
       ∧ call_event owner = event
       ∧ response_cookies owner = applied (cookies_set event) issued)
  ∧ (∀ c call, calls st' !! c = Some call → role call = Duplicate j →
       (∀ j' job', jobs st' !! j' = Some job' → job_owner job' ≠ c)
       ∧ match returned call with
         | None => response_cookies call = []
         | Some _ => accepts (call_event call) issued → response_cookies call = issued
         end).
Proof.
  intros Hreach Htok Hrun Hexec j issued.
  assert (reachable st') as Hreach' by (by eapply reachable_exec).
  simpl in Hexec.
  destruct (owner_call handler event st token Htok Hrun)
    as (_ & _ & _ & ops0 & written0 & body0 & Hseg & Hjobs & Hcalls).
  assert (jobs (wrapped handler event st) !! j
          = Some (mkJob token (length (calls st)) ops0 body0 None)) as Hj0
    by (rewrite Hjobs; apply list_lookup_middle; done).
  assert (calls (wrapped handler event st) !! length (calls st)
          = Some (mkCall event written0 (Owner j) None)) as Hc0
    by (rewrite Hcalls; apply list_lookup_middle; done).
  destruct (exec_job_issues tr _ _ _ _ _ Hexec Hj0 Hc0)
    as (job & Hj & Hown & Hops & _). simpl in Hown, Hops.
  apply run_segment_issues in Hseg as (new & Hnew & Hrest). simpl in Hnew. subst ops0.
  assert (ops job = issued) as Hissued.
  { unfold issued. rewrite Hrest. simpl. done. }
  destruct (exec_keeps_call _ _ _ _ _ Hexec Hc0) as (owner' & Hc' & Hev' & _).
  simpl in Hev'.
  destruct (recorded_ops_reach_callers st' j job Hreach' Hj)
    as ((owner & Hc & Hrole & Hresp & _) & Hdup).
  rewrite Hown in Hc. assert (owner' = owner) as -> by congruence.
  split_and!.
  - by exists job.
  - exists owner. rewrite <- Hissued, <- Hev'. done.
  - intros c call Hcall Hr. destruct (Hdup c call Hcall Hr) as (Hno & Hwait & Hret).
    split; [done|]. rewrite <- Hissued.
    destruct (returned call) as [r|]; [|by apply Hwait]. by apply Hret.
Qed.

Lemma side_effect_replay_witness :
  let event := event_with "abc123" accept_all in
  let tr := [Request signin event; Request signin event;
             HandlerResumes 0 []; JobSettles 0; DuplicateResumes 1] in
  let st' := run (Request signin event :: tr) in
  let issued := (handler_run (cookies_set event) (signin event) (inputs_of 0 tr)).1 in
  issued = [session_op; flash_op]
  ∧ returned (calls st' !!! 1) ≠ None
  ∧ returned (calls st' !!! 2) = None
  ∧ (∃ job, jobs st' !! 0 = Some job ∧ ops job = issued)
  ∧ (∃ owner, calls st' !! 0 = Some owner ∧ role owner = Owner 0
       ∧ call_event owner = event
       ∧ response_cookies owner = applied (cookies_set event) issued)
  ∧ (∀ c call, calls st' !! c = Some call → role call = Duplicate 0 →
       (∀ j' job', jobs st' !! j' = Some job' → job_owner job' ≠ c)
       ∧ match returned call with
         | None => response_cookies call = []
         | Some _ => accepts (call_event call) issued → response_cookies call = issued
         end).
Proof.
  split; [vm_compute; reflexivity|].
  split; [vm_compute; discriminate|].
  split; [vm_compute; reflexivity|].
  apply (side_effect_replay init signin (event_with "abc123" accept_all) "abc123"
           [Request signin (event_with "abc123" accept_all);
            Request signin (event_with "abc123" accept_all);
            HandlerResumes 0 []; JobSettles 0; DuplicateResumes 1]).
  - apply reachable_init.
  - vm_compute. reflexivity.
  - vm_compute. reflexivity.
  - vm_compute. reflexivity.
Defined.



(** ** The cleanup of a settled job *)

Lemma exec_keeps_promise tr : ∀ st st' j job o,
  exec tr st = Some st' → jobs st !! j = Some job → promise job = Some o →
  ∃ job', jobs st' !! j = Some job' ∧ job_token job' = job_token job
    ∧ promise job' = Some o.
Proof.
  induction tr as [|s tr IH]; simpl; intros st st' j job o Hexec Hj Hp.
  - simplify_eq. by exists job.
  - destruct (step s st) as [st1|] eqn:Hstep; simpl in Hexec; [|done].
    destruct (step_job_grows _ _ _ _ _ Hstep Hj) as (job1 & Hj1 & Ht1 & _ & _ & _ & Hp1).
    destruct (IH _ _ _ _ _ Hexec Hj1 (Hp1 _ Hp)) as (job' & Hj' & Ht' & Hp').
    exists job'. split_and!; [done|congruence|done].
Qed.

(** X13. The cleanup does not depend on how the handler ended.  Let the
    handler of job [j] have finished with [o], a returned value or a
    thrown error alike, the [finally] reaction not having run yet.  The
    token is still registered for [j]; the reaction can run, removes the
    token and no other entry, and settles the job's promise with [o];
    and whatever steps follow, the registry never maps the token to [j]
    again and the promise stays settled with [o]. *)
Theorem cleanup_is_unconditional st j job o :
  reachable st →
  jobs st !! j = Some job →
  body job = Finished o →
  promise job = None →
  running st !! job_token job = Some j
  ∧ ∃ st1, step (JobSettles j) st = Some st1
      ∧ running st1 !! job_token job = None
      ∧ (∀ token, token ≠ job_token job → running st1 !! token = running st !! token)
      ∧ (∃ job1, jobs st1 !! j = Some job1 ∧ promise job1 = Some o)
      ∧ ∀ tr st', exec tr st1 = Some st' →
          running st' !! job_token job ≠ Some j
          ∧ ∃ job', jobs st' !! j = Some job' ∧ promise job' = Some o.
Proof.
  intros Hreach Hj Hb Hp. pose proof (Inv_reachable _ Hreach) as HI.
  split; [by apply (inv_pending _ HI)|].
  assert (step (JobSettles j) st
          = Some (mkState (delete (job_token job) (running st))
                    (<[j := mkJob (job_token job) (job_owner job) (ops job) (body job)
                             (Some o)]> (jobs st))
                    (calls st) (invocations st))) as Hstep.
  { simpl. unfold settle_job. rewrite Hj. simpl. by rewrite Hb, Hp. }
  eexists. split; [exact Hstep|]. simpl.
  assert (<[j := mkJob (job_token job) (job_owner job) (ops job) (body job) (Some o)]>
            (jobs st) !! j
          = Some (mkJob (job_token job) (job_owner job) (ops job) (body job) (Some o)))
    as Hj1 by (apply list_lookup_insert_eq; by eapply lookup_lt_Some).
  split_and!.
  - by rewrite lookup_delete_eq.
  - intros token Hne. by rewrite lookup_delete_ne.
  - eexists. split; [exact Hj1|done].
  - intros tr st' Hexec.
    destruct (exec_keeps_promise _ _ _ _ _ _ Hexec Hj1 eq_refl) as (job' & Hj' & _ & Hp').
    split; [|by exists job'].
    assert (reachable st') as HI'%Inv_reachable.
    { eapply reachable_exec; [|exact Hexec].
      eapply (reachable_exec [JobSettles j]); [exact Hreach|].
      unfold exec. by rewrite Hstep. }
    intros Hreg. destruct (inv_entry _ HI' _ _ Hreg) as (job'' & Hj'' & _ & Hp'').
    congruence.
Qed.

Lemma cleanup_is_unconditional_witness :
  let st := run [Request signin (event_with "abc123" accept_all);
                 Request signin (event_with "abc123" accept_all);
                 HandlerResumes 0 []] in
  let job := jobs st !!! 0 in
  let o := Rejected (redirect 303%Z "/") in
  (job_token job = "abc123" ∧ body job = Finished o ∧ promise job = None)
  ∧ running st !! job_token job = Some 0
  ∧ ∃ st1, step (JobSettles 0) st = Some st1
      ∧ running st1 !! job_token job = None
      ∧ (∀ token, token ≠ job_token job → running st1 !! token = running st !! token)
      ∧ (∃ job1, jobs st1 !! 0 = Some job1 ∧ promise job1 = Some o)
      ∧ ∀ tr st', exec tr st1 = Some st' →
          running st' !! job_token job ≠ Some 0
          ∧ ∃ job', jobs st' !! 0 = Some job' ∧ promise job' = Some o.
Proof.
  split; [vm_compute; done|].
  apply (cleanup_is_unconditional
           (run [Request signin (event_with "abc123" accept_all);
                 Request signin (event_with "abc123" accept_all);
                 HandlerResumes 0 []])
           0 (jobs (run [Request signin (event_with "abc123" accept_all);
                         Request signin (event_with "abc123" accept_all);
                         HandlerResumes 0 []]) !!! 0)
           (Rejected (redirect 303%Z "/"))).
  - apply reachable_run. vm_compute. eexists. reflexivity.
  - vm_compute. reflexivity.
  - vm_compute. reflexivity.
  - vm_compute. reflexivity.
Defined.
